(** * A shallow embedding of the Monkey-style interpreter (Go)

    Packages covered: [token], [ast], [parser] (integer literals),
    [object] and [evaluator].  Go interface values of type
    [object.Object] are modelled by one inductive type whose extra
    constructor [Nil] is Go's nil interface; run-time panics and
    non-termination are outcomes of the evaluation monad. *)

From Stdlib Require Import ZArith Lia Ascii.
From stdpp Require Import base gmap strings list fin_maps pretty.

Set Warnings "-register-all".
Local Open Scope Z_scope.

(** ** 64-bit machine integers *)

Module Int64.

Definition modulus : Z := 2 ^ 64.
Definition min_signed : Z := - 2 ^ 63.
Definition max_signed : Z := 2 ^ 63 - 1.

(** Membership in Go's [int64]. *)
Definition in_range (z : Z) : Prop := min_signed <= z <= max_signed.

(** Two's-complement reduction of a mathematical integer to [int64]. *)
Definition wrap (z : Z) : Z := (z + 2 ^ 63) mod modulus - 2 ^ 63.

(** The conversion [uint64(x)] of an [int64]. *)
Definition to_uint64 (z : Z) : Z := z mod modulus.

Definition add (a b : Z) : Z := wrap (a + b).
Definition sub (a b : Z) : Z := wrap (a - b).
Definition mul (a b : Z) : Z := wrap (a * b).
Definition neg (a : Z) : Z := wrap (- a).

(** Go's [/] truncates toward zero and the overflowing quotient
    [min_signed / -1] wraps.  The divisor is non-zero here: division
    by zero is a run-time panic, raised by the caller. *)
Definition quot (a b : Z) : Z := wrap (Z.quot a b).

End Int64.

(** ** package token *)

Module token.

(** [type Token struct { Type; Literal string }], with [type Type string]. *)
Record Token : Type := mkToken { Type_ : string; Literal : string }.

Definition ILLEGAL : string := "ILLEGAL".
Definition EOF : string := "EOF".
Definition IDENT : string := "IDENT".
Definition INT : string := "INT".
Definition STRING : string := "STRING".

End token.

(** ** package ast

    Nodes keep the fields evaluation reads; the originating token of a
    node only feeds [TokenLiteral] and [String] and is left out.  A
    [*ast.BlockStatement] is its statement list, a [*ast.Identifier] in
    a parameter list is its [Value]. *)

Module ast.

Inductive Expression : Type :=
| Identifier (Value : string)
| IntegerLiteral (Value : Z)
| StringLiteral (Value : string)
| ArrayLiteral (Elements : list Expression)
| IndexExpression (Left Index : Expression)
  (** [Pairs map[Expression]Expression]: the keys are pointers to
      distinct nodes, so the map holds every pair the parser inserted;
      the list gives them in insertion (source) order, which the Go
      map itself does not remember. *)
| HashLiteral (Pairs : list (Expression * Expression))
| Boolean (Value : bool)
| FunctionLiteral (Parameters : list string) (Body : list Statement)
| IfExpression (Condition : Expression) (Consequence : list Statement)
               (Alternative : option (list Statement))
| CallExpression (Function : Expression) (Arguments : list Expression)
| PrefixExpression (Operator : string) (Right : Expression)
| InfixExpression (Left : Expression) (Operator : string) (Right : Expression)
with Statement : Type :=
| LetStatement (Name : string) (Value : Expression)
| ReturnStatement (ReturnValue : Expression)
| ExpressionStatement (Expression : Expression)
| BlockStatement (Statements : list Statement).

(** The values of the interface [ast.Node] that [Eval] dispatches on. *)
Inductive Node : Type :=
| Program (Statements : list Statement)
| Stmt (s : Statement)
| Expr (e : Expression).

End ast.

(** ** package object *)

Module object.

Definition INTEGER_OBJ : string := "INTEGER".
Definition BOOLEAN_OBJ : string := "BOOLEAN".
Definition STRING_OBJ : string := "STRING".
Definition ARRAY_OBJ : string := "ARRAY".
Definition HASH_OBJ : string := "HASH".
Definition NULL_OBJ : string := "NULL".
Definition RETURN_VALUE_OBJ : string := "RETURN_VALUE".
Definition ERROR_OBJ : string := "ERROR".
Definition FUNCTION_OBJ : string := "FUNCTION".
Definition BUILTIN_OBJ : string := "BUILTIN".

(** [type HashKey struct { Type; Value uint64 }] *)
Record HashKey : Type := mkHashKey { hk_Type : string; hk_Value : Z }.

#[global] Instance HashKey_eq_dec : EqDecision HashKey.
Proof. solve_decision. Defined.

#[global] Instance HashKey_countable : Countable HashKey.
Proof.
  refine (inj_countable' (fun k => (hk_Type k, hk_Value k))
                         (fun p => mkHashKey p.1 p.2) _).
  by intros [].
Defined.

(** [type HashPair struct { Key, Value Object }] *)
Record HashPair (O : Type) : Type := mkHashPair { Key : O; Value : O }.
Arguments mkHashPair {O} _ _.
Arguments Key {O} _.
Arguments Value {O} _.

(** A value of interface type [object.Object].  [Nil] is the nil
    interface; the other ten constructors are the concrete types.
    Arrays, hashes, functions and return values are compared by
    pointer in [==], so each carries the address [addr] it was
    allocated at; [TRUE], [FALSE] and [NULL] are the only values of
    their types the evaluator ever creates, and integers and strings
    are never compared by pointer.  A [Builtin] is its entry in the
    builtins table, a [Function] points to its environment. *)
Inductive Object : Type :=
| Nil
| Integer (Value : Z)
| Boolean (Value : bool)
| String (Value : string)
| Null
| Array (addr : nat) (Elements : list Object)
| Hash (addr : nat) (Pairs : gmap HashKey (HashPair Object))
| Function (addr : nat) (Parameters : list string)
           (Body : list ast.Statement) (Env : nat)
| Builtin (name : string)
| ReturnValue (addr : nat) (Value : Object)
| Error (Message : string).

(** The method [Type()]; [None] stands for the nil-pointer panic of a
    method call on the nil interface. *)
Definition Type_ (o : Object) : option string :=
  match o with
  | Nil => None
  | Integer _ => Some INTEGER_OBJ
  | Boolean _ => Some BOOLEAN_OBJ
  | String _ => Some STRING_OBJ
  | Null => Some NULL_OBJ
  | Array _ _ => Some ARRAY_OBJ
  | Hash _ _ => Some HASH_OBJ
  | Function _ _ _ _ => Some FUNCTION_OBJ
  | Builtin _ => Some BUILTIN_OBJ
  | ReturnValue _ _ => Some RETURN_VALUE_OBJ
  | Error _ => Some ERROR_OBJ
  end.

(** Whether [Inspect()] returns: it calls [Inspect] on the wrapped
    value, on every element and on every key and value, and a call
    on nil panics.  (The rendered text is not modelled.) *)
Fixpoint Inspect_returns (o : Object) : bool :=
  match o with
  | Nil => false
  | ReturnValue _ v => Inspect_returns v
  | Array _ els => forallb Inspect_returns els
  | Hash _ pairs =>
      map_fold (fun _ p acc =>
                  Inspect_returns (Key p) && Inspect_returns (Value p) && acc)
               true pairs
  | _ => true
  end.

(** FNV-1a, 64 bits ([hash/fnv.New64a]): for every byte, xor it into
    the state, then multiply by the prime modulo 2^64. *)
Definition fnv_offset64 : Z := 14695981039346656037.
Definition fnv_prime64 : Z := 1099511628211.

Fixpoint fnv1a_write (h : Z) (s : string) : Z :=
  match s with
  | EmptyString => h
  | String.String c s' =>
      fnv1a_write ((Z.lxor h (Z.of_N (N_of_ascii c)) * fnv_prime64) mod 2 ^ 64) s'
  end.

Definition Sum64a (s : string) : Z := fnv1a_write fnv_offset64 s.

(** The type assertion [o.(object.Hashable)] followed by [HashKey()]:
    only [*Integer], [*Boolean] and [*String] implement [Hashable]. *)
Definition HashKey_of (o : Object) : option HashKey :=
  match o with
  | Integer v => Some (mkHashKey INTEGER_OBJ (Int64.to_uint64 v))
  | Boolean b => Some (mkHashKey BOOLEAN_OBJ (if b then 1 else 0))
  | String s => Some (mkHashKey STRING_OBJ (Sum64a s))
  | _ => None
  end.

End object.

(** ** The store and the evaluation monad *)

Module store.

Import object.

(** Modelled from the spec: [object.Environment], whose source file is
    not part of the sources at hand.  "A mapping from name → Value
    together with an optional outer environment reference.  Lookups
    walk outward until the name is found or the chain ends.  Writes
    always target the innermost frame."  Environments are shared by
    reference, so they live in a heap and are named by their index. *)
Record Environment : Type :=
  mkEnvironment { env_store : gmap string Object; env_outer : option nat }.

(** The mutable world of one evaluation: the environments allocated so
    far, the next free object address, and the values whose
    [Inspect()] text [puts] has printed, oldest first. *)
Record State : Type :=
  mkState { envs : list Environment; next_addr : nat; stdout : list Object }.

(** How a Go call ends: it returns, it panics, or (the model's fuel
    being exhausted) it has not returned yet. *)
Inductive Result (A : Type) : Type :=
| Ok (a : A)
| Panic (reason : string)
| OutOfFuel.
Arguments Ok {A} _.
Arguments Panic {A} _.
Arguments OutOfFuel {A}.

Definition M (A : Type) : Type := State -> Result (A * State).

#[global] Instance M_ret : MRet M := fun A a s => Ok (a, s).
#[global] Instance M_bind : MBind M := fun A B f m s =>
  match m s with
  | Ok (a, s') => f a s'
  | Panic r => Panic r
  | OutOfFuel => OutOfFuel
  end.

Definition panic {A} (reason : string) : M A := fun _ => Panic reason.
Definition out_of_fuel {A} : M A := fun _ => OutOfFuel.

Definition nil_dereference : string :=
  "invalid memory address or nil pointer dereference".
Definition index_out_of_range : string := "index out of range".
Definition divide_by_zero : string := "integer divide by zero".

(** The next fresh address, for an [&object.T{...}] compared by pointer. *)
Definition alloc : M nat := fun s =>
  Ok (next_addr s, mkState (envs s) (S (next_addr s)) (stdout s)).

(** [obj.Type()] on an interface value. *)
Definition TypeOf (o : Object) : M string :=
  match Type_ o with
  | Some t => mret t
  | None => panic nil_dereference
  end.

(** Modelled from the spec: [NewEnclosedEnvironment(outer)], an empty
    frame whose outer reference is [outer]. *)
Definition NewEnclosedEnvironment (outer : nat) : M nat := fun s =>
  Ok (length (envs s),
      mkState (envs s ++ [mkEnvironment ∅ (Some outer)]) (next_addr s) (stdout s)).

(** Modelled from the spec: the outward walk of [Get].  A chain
    without cycles has at most as many frames as the heap, which
    bounds the walk. *)
Fixpoint Get_walk (n : nat) (h : list Environment) (env : nat) (name : string)
  : option Object :=
  match n with
  | O => None
  | S n' =>
      match h !! env with
      | None => None
      | Some fr =>
          match env_store fr !! name with
          | Some v => Some v
          | None =>
              match env_outer fr with
              | Some o => Get_walk n' h o name
              | None => None
              end
          end
      end
  end.

(** Modelled from the spec: [env.Get(name)], where [Some v] is
    [(v, true)] and [None] is [(nil, false)].  A reference to no frame
    is a nil [*Environment]. *)
Definition Get (env : nat) (name : string) : M (option Object) := fun s =>
  match envs s !! env with
  | None => Panic nil_dereference
  | Some _ => Ok (Get_walk (length (envs s)) (envs s) env name, s)
  end.

(** Modelled from the spec: [env.Set(name, val)], a write to the frame
    [env] itself. *)
Definition Set_ (env : nat) (name : string) (val : Object) : M unit := fun s =>
  match envs s !! env with
  | None => Panic nil_dereference
  | Some fr =>
      Ok (tt, mkState (<[env := mkEnvironment (<[name := val]> (env_store fr))
                                             (env_outer fr)]> (envs s))
                      (next_addr s) (stdout s))
  end.

(** [fmt.Println(arg.Inspect())] *)
Definition Println_Inspect (arg : Object) : M unit := fun s =>
  if Inspect_returns arg
  then Ok (tt, mkState (envs s) (next_addr s) (stdout s ++ [arg]))
  else Panic nil_dereference.

End store.

(** ** package evaluator: builtins *)

Module evaluator.

Import object store.
Local Open Scope string_scope.

Definition NULL : Object := Null.
Definition TRUE : Object := Boolean true.
Definition FALSE : Object := Boolean false.

(** [newError(format, a...)]; the [Sprintf] of each call site is
    written out where the call is. *)
Definition newError (message : string) : Object := Error message.

Definition isError (obj : Object) : bool :=
  match Type_ obj with
  | Some t => String.eqb t ERROR_OBJ
  | None => false
  end.

Definition nativeBoolToBooleanObject (input : bool) : Object :=
  if input then TRUE else FALSE.

(** A type assertion to a concrete object type that the preceding
    test has made safe. *)
Definition unreachable {A} : M A := panic "interface conversion".

Definition builtin_len (args : list Object) : M Object :=
  match args with
  | [arg] =>
      match arg with
      | String v => mret (Integer (Z.of_nat (String.length v)))
      | Array _ els => mret (Integer (Z.of_nat (length els)))
      | _ => t ← TypeOf arg; mret (newError ("len不支持的参数类型，" +:+ t))
      end
  | _ => mret (newError ("入参数量不正确，需要1个，实际" +:+ pretty (length args) +:+ "个"))
  end.

Definition builtin_first (args : list Object) : M Object :=
  match args with
  | [arg] =>
      t ← TypeOf arg;
      if negb (String.eqb t ARRAY_OBJ)
      then mret (newError ("first不支持的参数类型，" +:+ t))
      else match arg with
           | Array _ (e :: _) => mret e
           | Array _ [] => mret NULL
           | _ => unreachable
           end
  | _ => mret (newError ("入参数量不正确，需要1个，实际" +:+ pretty (length args) +:+ "个"))
  end.

Definition builtin_last (args : list Object) : M Object :=
  match args with
  | [arg] =>
      t ← TypeOf arg;
      if negb (String.eqb t ARRAY_OBJ)
      then mret (newError ("first不支持的参数类型，" +:+ t))
      else match arg with
           | Array _ els =>
               match last els with
               | Some e => mret e
               | None => mret NULL
               end
           | _ => unreachable
           end
  | _ => mret (newError ("入参数量不正确，需要1个，实际" +:+ pretty (length args) +:+ "个"))
  end.

Definition builtin_rest (args : list Object) : M Object :=
  match args with
  | [arg] =>
      t ← TypeOf arg;
      if negb (String.eqb t ARRAY_OBJ)
      then mret (newError ("first不支持的参数类型，" +:+ t))
      else match arg with
           | Array _ (_ :: newElements) =>
               a ← alloc; mret (Array a newElements)
           | Array _ [] => mret NULL
           | _ => unreachable
           end
  | _ => mret (newError ("入参数量不正确，需要1个，实际" +:+ pretty (length args) +:+ "个"))
  end.

Definition builtin_push (args : list Object) : M Object :=
  match args with
  | [arg; x] =>
      t ← TypeOf arg;
      if negb (String.eqb t ARRAY_OBJ)
      then mret (newError ("first不支持的参数类型，" +:+ t))
      else match arg with
           | Array _ els => a ← alloc; mret (Array a (els ++ [x]))
           | _ => unreachable
           end
  | _ => mret (newError ("入参数量不正确，需要2个，实际" +:+ pretty (length args) +:+ "个"))
  end.

Fixpoint builtin_puts (args : list Object) : M Object :=
  match args with
  | [] => mret NULL
  | arg :: args' => _ ← Println_Inspect arg; builtin_puts args'
  end.

(** [var builtins = map[string]*object.Builtin{...}] *)
Definition builtins : gmap string (list Object -> M Object) :=
  list_to_map
    [ ("len", builtin_len); ("first", builtin_first); ("last", builtin_last);
      ("rest", builtin_rest); ("push", builtin_push); ("puts", builtin_puts) ].

(** [fn.Fn(args...)] for the table entry [name]. *)
Definition call_builtin (name : string) (args : list Object) : M Object :=
  match builtins !! name with
  | Some fn => fn args
  | None => panic nil_dereference
  end.

(** ** package evaluator: operators *)

Definition evalBongOperatorExpression (right : Object) : Object :=
  match right with
  | Boolean true => FALSE
  | Boolean false => TRUE
  | Null => TRUE
  | _ => FALSE
  end.

Definition evalMinusPrefixOperatorExpression (right : Object) : M Object :=
  mismatch ← match right with
             | Nil => mret true
             | _ => t ← TypeOf right; mret (negb (String.eqb t INTEGER_OBJ))
             end;
  if (mismatch : bool)
  then t ← TypeOf right; mret (newError ("未知的操作: -" +:+ t))
  else match right with
       | Integer value => mret (Integer (Int64.neg value))
       | _ => unreachable
       end.

Definition evalPrefixExpression (operator : string) (right : Object) : M Object :=
  if String.eqb operator "!" then mret (evalBongOperatorExpression right)
  else if String.eqb operator "-" then evalMinusPrefixOperatorExpression right
  else t ← TypeOf right; mret (newError ("未知的操作: " +:+ operator +:+ t)).

Definition evalIntegerInfixExpression (operator : string) (left right : Object)
  : M Object :=
  match left, right with
  | Integer leftVal, Integer rightVal =>
      if String.eqb operator "+" then mret (Integer (Int64.add leftVal rightVal))
      else if String.eqb operator "-" then mret (Integer (Int64.sub leftVal rightVal))
      else if String.eqb operator "*" then mret (Integer (Int64.mul leftVal rightVal))
      else if String.eqb operator "/" then
        if Z.eqb rightVal 0 then panic divide_by_zero
        else mret (Integer (Int64.quot leftVal rightVal))
      else if String.eqb operator ">" then
        mret (nativeBoolToBooleanObject (Z.gtb leftVal rightVal))
      else if String.eqb operator "<" then
        mret (nativeBoolToBooleanObject (Z.ltb leftVal rightVal))
      else if String.eqb operator "==" then
        mret (nativeBoolToBooleanObject (Z.eqb leftVal rightVal))
      else if String.eqb operator "!=" then
        mret (nativeBoolToBooleanObject (negb (Z.eqb leftVal rightVal)))
      else
        lt ← TypeOf left; rt ← TypeOf right;
        mret (newError ("未知的操作: " +:+ lt +:+ " " +:+ operator +:+ " " +:+ rt))
  | _, _ => unreachable
  end.

Definition evalStringInfixExpression (operator : string) (left right : Object)
  : M Object :=
  if negb (String.eqb operator "+")
  then lt ← TypeOf left; rt ← TypeOf right;
       mret (newError ("未知的操作: " +:+ lt +:+ " " +:+ operator +:+ " " +:+ rt))
  else match left, right with
       | String leftVal, String rightVal => mret (String (leftVal +:+ rightVal))
       | _, _ => unreachable
       end.

(** Go's [left == right] on two interface values: the same dynamic
    type and the same pointer.  Two integers or two strings never get
    here ([evalInfixExpression] has taken them before), nor does an
    [Error]; for them the answer below is not meant. *)
Definition same_object (left right : Object) : bool :=
  match left, right with
  | Nil, Nil => true
  | Boolean a, Boolean b => Bool.eqb a b
  | Null, Null => true
  | Array a _, Array b _ => Nat.eqb a b
  | Hash a _, Hash b _ => Nat.eqb a b
  | Function a _ _ _, Function b _ _ _ => Nat.eqb a b
  | ReturnValue a _, ReturnValue b _ => Nat.eqb a b
  | Builtin n, Builtin m => String.eqb n m
  | _, _ => false
  end.

(** The conjunction [left.Type() == t && right.Type() == t]: the right
    operand's [Type()] is only called when the left test holds. *)
Definition both_have_type (t : string) (left right : Object) : M bool :=
  lt ← TypeOf left;
  if String.eqb lt t then rt ← TypeOf right; mret (String.eqb rt t)
  else mret false.

Definition evalInfixExpression (operator : string) (left right : Object)
  : M Object :=
  ints ← both_have_type INTEGER_OBJ left right;
  if (ints : bool) then evalIntegerInfixExpression operator left right else
  strs ← both_have_type STRING_OBJ left right;
  if (strs : bool) then evalStringInfixExpression operator left right else
  if String.eqb operator "==" then
    mret (nativeBoolToBooleanObject (same_object left right))
  else if String.eqb operator "!=" then
    mret (nativeBoolToBooleanObject (negb (same_object left right)))
  else
    lt ← TypeOf left; rt ← TypeOf right;
    if negb (String.eqb lt rt)
    then mret (newError ("类型不匹配: " +:+ lt +:+ " " +:+ operator +:+ " " +:+ rt))
    else mret (newError ("未知的操作: " +:+ lt +:+ " " +:+ operator +:+ " " +:+ rt)).

Definition isTruthy (obj : Object) : bool :=
  match obj with
  | Null => false
  | Boolean true => true
  | Boolean false => false
  | _ => true
  end.

Definition unwrapReturnValue (obj : Object) : Object :=
  match obj with
  | ReturnValue _ value => value
  | _ => obj
  end.

(** ** package evaluator: indexing *)

Definition evalArrayIndexExpression (array index : Object) : M Object :=
  match array, index with
  | Array _ elements, Integer idx =>
      let max := Z.of_nat (length elements) - 1 in
      if Z.ltb idx 0 || Z.gtb idx max then mret NULL
      else match elements !! Z.to_nat idx with
           | Some e => mret e
           | None => panic index_out_of_range
           end
  | _, _ => unreachable
  end.

Definition evalHashIndexExpression (hash index : Object) : M Object :=
  match hash with
  | Hash _ pairs =>
      match HashKey_of index with
      | None => t ← TypeOf index; mret (newError ("无法作为哈希的键, " +:+ t))
      | Some key =>
          match pairs !! key with
          | None => mret NULL
          | Some p => mret (Value p)
          end
      end
  | _ => unreachable
  end.

Definition evalIndexExpression (left index : Object) : M Object :=
  lt ← TypeOf left;
  arr ← (if String.eqb lt ARRAY_OBJ
         then it ← TypeOf index; mret (String.eqb it INTEGER_OBJ)
         else mret false);
  if (arr : bool) then evalArrayIndexExpression left index
  else if String.eqb lt HASH_OBJ then evalHashIndexExpression left index
  else mret (newError ("不支持访问索引, " +:+ lt)).

(** ** package evaluator: [Eval]

    [Eval] and its helpers call each other; the helpers are written
    against the [Eval] one recursion level down.  [map_range] is the
    order in which Go's [range] visits the pairs of a hash literal's
    map: the language leaves it unspecified, so it is a parameter. *)

Section Eval_body.

Variable map_range :
  list (ast.Expression * ast.Expression) -> list (ast.Expression * ast.Expression).
Variable Eval : ast.Node -> nat -> M Object.

Fixpoint evalProgram_loop (result : Object) (stmts : list ast.Statement)
         (env : nat) : M Object :=
  match stmts with
  | [] => mret result
  | stmt :: stmts' =>
      result ← Eval (ast.Stmt stmt) env;
      match result with
      | ReturnValue _ value => mret value
      | Error _ => mret result
      | _ => evalProgram_loop result stmts' env
      end
  end.

Definition evalProgram (stmts : list ast.Statement) (env : nat) : M Object :=
  evalProgram_loop Nil stmts env.

Fixpoint evalBlockStatement_loop (result : Object) (stmts : list ast.Statement)
         (env : nat) : M Object :=
  match stmts with
  | [] => mret result
  | stmt :: stmts' =>
      result ← Eval (ast.Stmt stmt) env;
      match Type_ result with
      | Some rt =>
          if String.eqb rt RETURN_VALUE_OBJ || String.eqb rt ERROR_OBJ
          then mret result
          else evalBlockStatement_loop result stmts' env
      | None => evalBlockStatement_loop result stmts' env
      end
  end.

Definition evalBlockStatement (block : list ast.Statement) (env : nat)
  : M Object :=
  evalBlockStatement_loop Nil block env.

Definition evalIfExpression (Condition : ast.Expression)
           (Consequence : list ast.Statement)
           (Alternative : option (list ast.Statement)) (env : nat) : M Object :=
  condition ← Eval (ast.Expr Condition) env;
  if isError condition then mret condition
  else if isTruthy condition
       then Eval (ast.Stmt (ast.BlockStatement Consequence)) env
       else match Alternative with
            | Some alt => Eval (ast.Stmt (ast.BlockStatement alt)) env
            | None => mret NULL
            end.

Definition evalIdentifier (Value : string) (env : nat) : M Object :=
  r ← Get env Value;
  match r with
  | Some val => mret val
  | None =>
      match builtins !! Value with
      | Some _ => mret (Builtin Value)
      | None => mret (newError ("变量未定义: " +:+ Value))
      end
  end.

Fixpoint evalExpressions_loop (result : list Object)
         (exps : list ast.Expression) (env : nat) : M (list Object) :=
  match exps with
  | [] => mret result
  | exp :: exps' =>
      evaluated ← Eval (ast.Expr exp) env;
      if isError evaluated then mret [evaluated]
      else evalExpressions_loop (result ++ [evaluated]) exps' env
  end.

Definition evalExpressions (exps : list ast.Expression) (env : nat)
  : M (list Object) :=
  evalExpressions_loop [] exps env.

(** The loop of [extendFunctionEnv]; [args[paramIdx]] panics when
    the index is not below [len(args)]. *)
Fixpoint extendFunctionEnv_loop (env : nat) (paramIdx : nat)
         (params : list string) (args : list Object) : M unit :=
  match params with
  | [] => mret tt
  | param :: params' =>
      match args !! paramIdx with
      | None => panic index_out_of_range
      | Some arg =>
          _ ← Set_ env param arg;
          extendFunctionEnv_loop env (S paramIdx) params' args
      end
  end.

Definition extendFunctionEnv (Parameters : list string) (fnEnv : nat)
           (args : list Object) : M nat :=
  env ← NewEnclosedEnvironment fnEnv;
  _ ← extendFunctionEnv_loop env 0%nat Parameters args;
  mret env.

Definition applyFunction (fn : Object) (args : list Object) : M Object :=
  match fn with
  | Function _ Parameters Body fnEnv =>
      extendEnv ← extendFunctionEnv Parameters fnEnv args;
      evaluated ← Eval (ast.Stmt (ast.BlockStatement Body)) extendEnv;
      mret (unwrapReturnValue evaluated)
  | Builtin name => call_builtin name args
  | _ => t ← TypeOf fn; mret (newError ("不是一个函数: " +:+ t))
  end.

Fixpoint evalHashLiteral_loop (pairs : gmap HashKey (HashPair Object))
         (todo : list (ast.Expression * ast.Expression)) (env : nat)
  : M Object :=
  match todo with
  | [] => a ← alloc; mret (Hash a pairs)
  | (keyNode, valueNode) :: todo' =>
      key ← Eval (ast.Expr keyNode) env;
      if isError key then mret key
      else match HashKey_of key with
           | None => t ← TypeOf key; mret (newError ("无法作为哈希的键, " +:+ t))
           | Some hashed =>
               value ← Eval (ast.Expr valueNode) env;
               if isError value then mret value
               else evalHashLiteral_loop
                      (<[hashed := mkHashPair key value]> pairs) todo' env
           end
  end.

Definition evalHashLiteral (Pairs : list (ast.Expression * ast.Expression))
           (env : nat) : M Object :=
  evalHashLiteral_loop ∅ (map_range Pairs) env.

Definition Eval_body (node : ast.Node) (env : nat) : M Object :=
  match node with
  | ast.Program Statements => evalProgram Statements env
  | ast.Stmt (ast.ExpressionStatement Expression) => Eval (ast.Expr Expression) env
  | ast.Stmt (ast.LetStatement Name Value) =>
      val ← Eval (ast.Expr Value) env;
      if isError val then mret val
      else _ ← Set_ env Name val; mret Nil
  | ast.Expr (ast.PrefixExpression Operator Right) =>
      right ← Eval (ast.Expr Right) env;
      if isError right then mret right
      else evalPrefixExpression Operator right
  | ast.Expr (ast.InfixExpression Left Operator Right) =>
      left ← Eval (ast.Expr Left) env;
      if isError left then mret left else
      right ← Eval (ast.Expr Right) env;
      if isError right then mret right
      else evalInfixExpression Operator left right
  | ast.Stmt (ast.BlockStatement Statements) => evalBlockStatement Statements env
  | ast.Expr (ast.IfExpression Condition Consequence Alternative) =>
      evalIfExpression Condition Consequence Alternative env
  | ast.Stmt (ast.ReturnStatement ReturnValue_) =>
      val ← Eval (ast.Expr ReturnValue_) env;
      if isError val then mret val
      else a ← alloc; mret (ReturnValue a val)
  | ast.Expr (ast.IntegerLiteral Value) => mret (Integer Value)
  | ast.Expr (ast.StringLiteral Value) => mret (String Value)
  | ast.Expr (ast.Boolean Value) => mret (nativeBoolToBooleanObject Value)
  | ast.Expr (ast.Identifier Value) => evalIdentifier Value env
  | ast.Expr (ast.ArrayLiteral Elements) =>
      elements ← evalExpressions Elements env;
      match elements with
      | [e] => if isError e then mret e
               else a ← alloc; mret (Array a elements)
      | _ => a ← alloc; mret (Array a elements)
      end
  | ast.Expr (ast.IndexExpression Left Index) =>
      left ← Eval (ast.Expr Left) env;
      if isError left then mret left else
      index ← Eval (ast.Expr Index) env;
      if isError index then mret index
      else evalIndexExpression left index
  | ast.Expr (ast.HashLiteral Pairs) => evalHashLiteral Pairs env
  | ast.Expr (ast.FunctionLiteral Parameters Body) =>
      a ← alloc; mret (Function a Parameters Body env)
  | ast.Expr (ast.CallExpression Function_ Arguments) =>
      function ← Eval (ast.Expr Function_) env;
      if isError function then mret function else
      args ← evalExpressions Arguments env;
      match args with
      | [e] => if isError e then mret e else applyFunction function args
      | _ => applyFunction function args
      end
  end.

End Eval_body.

(** [Eval], with the depth of nested calls bounded by [fuel]. *)
Fixpoint Eval (map_range : list (ast.Expression * ast.Expression) ->
                           list (ast.Expression * ast.Expression))
         (fuel : nat) (node : ast.Node) (env : nat) : M Object :=
  match fuel with
  | O => out_of_fuel
  | S fuel' => Eval_body map_range (Eval map_range fuel') node env
  end.

End evaluator.

(** ** Go's [strconv.ParseInt(s, 0, 64)]

    The parser hands the lexeme of an [INT] token to this library
    function with base 0, which reads the base off the lexeme's prefix.
    Bytes are their codes. *)

Module strconv.

Inductive NumError : Type := ErrSyntax | ErrRange.

Definition bytes (s : string) : list Z :=
  map (fun c => Z.of_N (N_of_ascii c)) (String.list_ascii_of_string s).

Definition maxUint64 : Z := 2 ^ 64 - 1.

(** [lower(c)], that is [c | ('x' - 'X')]. *)
Definition lower (c : Z) : Z := Z.lor c 32.

Definition is_digit (c : Z) : bool := (48 <=? c) && (c <=? 57).

(** The value of the byte [c] as a digit, if it is a digit or a letter. *)
Definition digit_of (c : Z) : option Z :=
  if is_digit c then Some (c - 48)
  else if (97 <=? lower c) && (lower c <=? 122) then Some (lower c - 97 + 10)
  else None.

(** The scan of [ParseUint]: [n] is the number read so far and
    [underscores] whether a ['_'] was skipped. *)
Fixpoint ParseUint_loop (base cutoff maxVal n : Z) (underscores : bool)
         (s : list Z) : Z * bool * option NumError :=
  match s with
  | [] => (n, underscores, None)
  | c :: s' =>
      if c =? 95 then ParseUint_loop base cutoff maxVal n true s'
      else match digit_of c with
           | None => (0, underscores, Some ErrSyntax)
           | Some d =>
               if d >=? base then (0, underscores, Some ErrSyntax)
               else if n >=? cutoff then (maxVal, underscores, Some ErrRange)
               else
                 let n := n * base in
                 let n1 := (n + d) mod 2 ^ 64 in
                 if (n1 <? n) || (n1 >? maxVal)
                 then (maxVal, underscores, Some ErrRange)
                 else ParseUint_loop base cutoff maxVal n1 underscores s'
           end
  end.

Inductive saw : Type := SawStart | SawDigit | SawUnderscore | SawOther.

Fixpoint underscoreOK_loop (hex : bool) (last : saw) (s : list Z) : bool :=
  match s with
  | [] => match last with SawUnderscore => false | _ => true end
  | c :: s' =>
      if is_digit c || (hex && (97 <=? lower c) && (lower c <=? 102))
      then underscoreOK_loop hex SawDigit s'
      else if c =? 95 then
        match last with
        | SawDigit => underscoreOK_loop hex SawUnderscore s'
        | _ => false
        end
      else match last with
           | SawUnderscore => false
           | _ => underscoreOK_loop hex SawOther s'
           end
  end.

Definition is_base_letter (c : Z) : bool :=
  (lower c =? 98) || (lower c =? 111) || (lower c =? 120).

Definition underscoreOK (s : list Z) : bool :=
  let s := match s with
           | c :: s' => if (c =? 45) || (c =? 43) then s' else s
           | [] => s
           end in
  match s with
  | c0 :: c1 :: s' =>
      if (c0 =? 48) && is_base_letter c1
      then underscoreOK_loop (lower c1 =? 120) SawDigit s'
      else underscoreOK_loop false SawStart s
  | _ => underscoreOK_loop false SawStart s
  end.

(** The base and the digits to scan, for base 0: [0b], [0o] and [0x]
    need a third byte, any other leading [0] means octal. *)
Definition base_prefix (s : list Z) : Z * list Z :=
  match s with
  | c0 :: rest =>
      if c0 =? 48 then
        match rest with
        | c1 :: _ :: _ =>
            if lower c1 =? 98 then (2, drop 1 rest)
            else if lower c1 =? 111 then (8, drop 1 rest)
            else if lower c1 =? 120 then (16, drop 1 rest)
            else (8, rest)
        | _ => (8, rest)
        end
      else (10, s)
  | [] => (10, s)
  end.

(** [ParseUint(s, 0, 64)] *)
Definition ParseUint (s0 : list Z) : Z * option NumError :=
  match s0 with
  | [] => (0, Some ErrSyntax)
  | _ =>
      let '(base, s) := base_prefix s0 in
      let cutoff := maxUint64 / base + 1 in
      let maxVal := 2 ^ 64 - 1 in
      match ParseUint_loop base cutoff maxVal 0 false s with
      | (n, _, Some err) => (n, Some err)
      | (n, underscores, None) =>
          if underscores && negb (underscoreOK s0) then (0, Some ErrSyntax)
          else (n, None)
      end
  end.

(** [ParseInt(s, 0, 64)]: the value and the error, [None] for [nil]. *)
Definition ParseInt (lexeme : string) : Z * option NumError :=
  match bytes lexeme with
  | [] => (0, Some ErrSyntax)
  | c :: s' =>
      let '(neg, s) := if c =? 43 then (false, s')
                       else if c =? 45 then (true, s')
                       else (false, c :: s') in
      match ParseUint s with
      | (_, Some ErrSyntax) => (0, Some ErrSyntax)
      | (un, _) =>
          let cutoff := 2 ^ 63 in
          if negb neg && (un >=? cutoff) then (cutoff - 1, Some ErrRange)
          else if neg && (un >? cutoff) then (- cutoff, Some ErrRange)
          else (Int64.wrap (if neg then - un else un), None)
      end
  end.

End strconv.

(** ** package parser: integer literals *)

Module parser.

(** The fields of [Parser] that [parseIntegerLiteral] touches; the
    lexer and the handler tables are left out. *)
Record Parser : Type :=
  mkParser { curToken : token.Token; peekToken : token.Token;
             errors : list string }.

Definition double_quote : string := String.String (ascii_of_nat 34) EmptyString.

(** The verb [%q] on a string that needs no escaping, as every
    lexeme of digits is. *)
Definition Sprintf_q (s : string) : string := double_quote +:+ s +:+ double_quote.

(** The result is [None] where Go returns a nil expression. *)
Definition parseIntegerLiteral (p : Parser) : option ast.Expression * Parser :=
  match strconv.ParseInt (token.Literal (curToken p)) with
  | (value, None) => (Some (ast.IntegerLiteral value), p)
  | (_, Some _) =>
      let msg := "无法解析 " +:+ Sprintf_q (token.Literal (curToken p)) +:+ " 为数字" in
      (None, mkParser (curToken p) (peekToken p) (errors p ++ [msg]))
  end.

End parser.

(** ** Notions used to state the properties *)

Module props.

Import object store evaluator.

(** Modelled from the spec: the state a host starts from, in which
    the only environment is the empty root one ([NewEnvironment()]). *)
Definition initial_state : State := mkState [mkEnvironment ∅ None] 0 [].

(** A statement result that ends the loop of [evalProgram]. *)
Definition ends_program (r : Object) : bool :=
  match r with
  | ReturnValue _ _ | Error _ => true
  | _ => false
  end.

(** [passes ev env stmts s s']: the loop of [evalProgram] executes all
    of [stmts] from state [s], none of them ends it, and it leaves
    state [s']. *)
Inductive passes (ev : ast.Node -> nat -> M Object) (env : nat)
  : list ast.Statement -> State -> State -> Prop :=
| passes_nil s : passes ev env [] s s
| passes_cons stmt stmts s r s1 s2 :
    ev (ast.Stmt stmt) env s = Ok (r, s1) ->
    ends_program r = false ->
    passes ev env stmts s1 s2 ->
    passes ev env (stmt :: stmts) s s2.

(** [evaluates_pairs ev env todo s kvs s']: visiting the pairs [todo]
    in this order from state [s], each key and then its value
    evaluates to a value that is no [Error], each key is hashable,
    and [kvs] lists the hash keys and pairs obtained, in the order of
    the visit; [s'] is the state after the last value. *)
Inductive evaluates_pairs (ev : ast.Node -> nat -> M Object) (env : nat)
  : list (ast.Expression * ast.Expression) -> State ->
    list (HashKey * HashPair Object) -> State -> Prop :=
| evaluates_nil s : evaluates_pairs ev env [] s [] s
| evaluates_cons keyNode valueNode todo s key s1 hashed value s2 kvs s3 :
    ev (ast.Expr keyNode) env s = Ok (key, s1) ->
    isError key = false ->
    HashKey_of key = Some hashed ->
    ev (ast.Expr valueNode) env s1 = Ok (value, s2) ->
    isError value = false ->
    evaluates_pairs ev env todo s2 kvs s3 ->
    evaluates_pairs ev env ((keyNode, valueNode) :: todo) s
                    ((hashed, mkHashPair key value) :: kvs) s3.

(** The map built by inserting [kvs] one after the other into [m]. *)
Definition insert_all (kvs : list (HashKey * HashPair Object))
           (m : gmap HashKey (HashPair Object)) : gmap HashKey (HashPair Object) :=
  fold_left (fun acc kv => <[kv.1 := kv.2]> acc) kvs m.

(** The number a string of digits denotes in [base], most significant
    digit first, continuing from [acc]. *)
Definition digits_value (base : Z) (acc : Z) (ds : list Z) : Z :=
  fold_left (fun n c => n * base + (c - 48)) ds acc.

(** Every byte is one of ['0'..'9'] and, as a digit, below [base]. *)
Definition digits_below (base : Z) (ds : list Z) : bool :=
  forallb (fun c => strconv.is_digit c && (c - 48 <? base)) ds.

(** How base 0 reads a lexeme of digits: after a leading ['0'] the
    rest is octal, any other lexeme is decimal. *)
Definition leading_zero_reading (bs : list Z) : Z * list Z :=
  match bs with
  | c :: rest => if c =? 48 then (8, rest) else (10, bs)
  | [] => (10, bs)
  end.

(** The parser after it has recorded that [lexeme] is no integer. *)
Definition with_integer_error (p : parser.Parser) (lexeme : string) : parser.Parser :=
  parser.mkParser
    (parser.curToken p) (parser.peekToken p)
    (parser.errors p ++ ["无法解析 " +:+ parser.Sprintf_q lexeme +:+ " 为数字"]).

(** The store of a frame after binding [params] to the arguments from
    position [idx] on, one [Set] after the other. *)
Definition bound (args : list Object) (params : list string) (idx : nat)
           (store0 : gmap string Object) : gmap string Object :=
  fold_left (fun m pa => <[pa.1 := pa.2]> m) (zip params (drop idx args)) store0.

(** The hash literal [{1: 10, 1: 20}]. *)
Definition duplicate_key_literal : ast.Expression :=
  ast.HashLiteral [(ast.IntegerLiteral 1, ast.IntegerLiteral 10);
                   (ast.IntegerLiteral 1, ast.IntegerLiteral 20)].

(** A parser whose current token is the INT token of [lexeme]. *)
Definition parser_at (lexeme : string) : parser.Parser :=
  parser.mkParser (token.mkToken token.INT lexeme) (token.mkToken token.EOF EmptyString) [].

End props.

(** ** package token: the remaining token types and the keywords *)

Module tokens.

Definition ASSIGN : string := "=".
Definition PLUS : string := "+".
Definition MINUS : string := "-".
Definition ASTERISK : string := "*".
Definition SLASH : string := "/".
Definition BANG : string := "!".
Definition LT : string := "<".
Definition GT : string := ">".
Definition EQ : string := "==".
Definition NEQ : string := "!=".
Definition COMMA : string := ",".
Definition SEMICOLON : string := ";".
Definition LPAREN : string := "(".
Definition RPAREN : string := ")".
Definition LBRACE : string := "{".
Definition RBRACE : string := "}".
Definition LBRACKET : string := "[".
Definition RBRACKET : string := "]".
Definition COLON : string := ":".
Definition FUNCTION : string := "FUNCTION".
Definition LET : string := "LET".
Definition TRUE : string := "TRUE".
Definition FALSE : string := "FALSE".
Definition IF : string := "IF".
Definition ELSE : string := "ELSE".
Definition RETURN : string := "RETURN".

(** [var Keywords = map[string]Type{...}] *)
Definition Keywords : gmap string string :=
  list_to_map
    [ ("fn", FUNCTION); ("let", LET); ("true", TRUE); ("false", FALSE);
      ("if", IF); ("else", ELSE); ("return", RETURN) ].

Definition LookupIdent (ident : string) : string :=
  match Keywords !! ident with
  | Some tok => tok
  | None => token.IDENT
  end.

End tokens.

(** ** package ast, as the parser builds it

    The nodes with all their fields, the token included, and with the
    nil values a parse can leave behind: [NilExpression] is the nil
    [Expression] interface, [NilStatement] the nil [Statement]
    interface, and [NilLetStatement] a [Statement] interface that holds
    a nil pointer to a LetStatement (in Go such an interface value is
    not equal to nil).  A nil slice is the empty list. *)

Module tree.

(** [*ast.Identifier], where it is not an expression: the name of a
    let statement and the parameters of a function literal. *)
Record Ident : Type := mkIdent { id_Token : token.Token; id_Value : string }.

Inductive Expression : Type :=
| NilExpression
| Identifier (Token : token.Token) (Value : string)
| IntegerLiteral (Token : token.Token) (Value : Z)
| StringLiteral (Token : token.Token) (Value : string)
| ArrayLiteral (Token : token.Token) (Elements : list Expression)
| IndexExpression (Token : token.Token) (Left Index : Expression)
  (** The entries of the map [Pairs], in the order of their first
      insertion (see [Pairs_insert]). *)
| HashLiteral (Token : token.Token) (Pairs : list (Expression * Expression))
| Boolean (Token : token.Token) (Value : bool)
| FunctionLiteral (Token : token.Token) (Parameters : list Ident) (Body : Block)
| IfExpression (Token : token.Token) (Condition : Expression)
               (Consequence : Block) (Alternative : option Block)
| CallExpression (Token : token.Token) (Function : Expression)
                 (Arguments : list Expression)
| PrefixExpression (Token : token.Token) (Operator : string) (Right : Expression)
| InfixExpression (Token : token.Token) (Left : Expression) (Operator : string)
                  (Right : Expression)
with Statement : Type :=
| NilStatement
| NilLetStatement
| LetStatement (Token : token.Token) (Name : Ident) (Value : Expression)
| ReturnStatement (Token : token.Token) (ReturnValue : Expression)
| ExpressionStatement (Token : token.Token) (Expression : Expression)
| BlockStatement (b : Block)
with Block : Type :=
| mkBlock (Token : token.Token) (Statements : list Statement).

(** [type Program struct { Statements []Statement }] *)
Record Program : Type := mkProgram { Statements : list Statement }.

(** The assignment [Pairs[key] = val] on the map of a hash literal.
    Two keys are the same map key when they are the same interface
    value; every node the parser builds is a new pointer, so that
    happens only for two nil keys. *)
Fixpoint Pairs_insert (key val : Expression) (Pairs : list (Expression * Expression))
  : list (Expression * Expression) :=
  match Pairs with
  | [] => [(key, val)]
  | (k, v) :: Pairs' =>
      match key, k with
      | NilExpression, NilExpression => (k, val) :: Pairs'
      | _, _ => (k, v) :: Pairs_insert key val Pairs'
      end
  end.

End tree.

(** ** package ast: the methods [String()]

    [None] is the panic of a method call on a nil interface or through
    a nil pointer.  [map_order] puts the rendered pairs of a hash
    literal into the order in which [range] visits its map. *)

Module printing.

Import tree.

(** [strings.Join(elems, sep)] *)
Fixpoint Join (elems : list string) (sep : string) : string :=
  match elems with
  | [] => EmptyString
  | [e] => e
  | e :: elems' => e +:+ sep +:+ Join elems' sep
  end.

(** The concatenation a [bytes.Buffer] collects. *)
Definition concat_strings (parts : list string) : string :=
  fold_right String.append EmptyString parts.

Section String_methods.

Variable map_order : list string -> list string.

Fixpoint Expression_String (e : Expression) : option string :=
  match e with
  | NilExpression => None
  | Identifier _ Value => Some Value
  | IntegerLiteral Token _ => Some (token.Literal Token)
  | StringLiteral Token _ => Some (token.Literal Token)
  | ArrayLiteral _ Elements =>
      elements ← mapM Expression_String Elements;
      Some ("[" +:+ Join elements ", " +:+ "]")
  | IndexExpression _ Left Index =>
      left ← Expression_String Left;
      index ← Expression_String Index;
      Some ("(" +:+ left +:+ "[" +:+ index +:+ "])")
  | HashLiteral _ Pairs =>
      pairs ← mapM (fun kv => k ← Expression_String kv.1;
                             v ← Expression_String kv.2;
                             Some (k +:+ ":" +:+ v))
                   Pairs;
      Some ("{" +:+ Join (map_order pairs) ", " +:+ "}")
  | Boolean Token _ => Some (token.Literal Token)
  | FunctionLiteral Token Parameters Body =>
      body ← Block_String Body;
      Some (token.Literal Token +:+ "(" +:+ Join (map id_Value Parameters) ", " +:+ ")"
            +:+ body)
  | IfExpression _ Condition Consequence Alternative =>
      condition ← Expression_String Condition;
      consequence ← Block_String Consequence;
      match Alternative with
      | Some alt =>
          alternative ← Block_String alt;
          Some ("if" +:+ condition +:+ " " +:+ consequence +:+ "else " +:+ alternative)
      | None => Some ("if" +:+ condition +:+ " " +:+ consequence)
      end
  | CallExpression _ Function Arguments =>
      args ← mapM Expression_String Arguments;
      function ← Expression_String Function;
      Some (function +:+ "(" +:+ Join args ", " +:+ ")")
  | PrefixExpression _ Operator Right =>
      right ← Expression_String Right;
      Some ("(" +:+ Operator +:+ right +:+ ")")
  | InfixExpression _ Left Operator Right =>
      left ← Expression_String Left;
      right ← Expression_String Right;
      Some ("(" +:+ left +:+ " " +:+ Operator +:+ " " +:+ right +:+ ")")
  end
with Statement_String (st : Statement) : option string :=
  match st with
  | NilStatement => None
  | NilLetStatement => None
  | LetStatement Token Name Value =>
      value ← match Value with
              | NilExpression => Some EmptyString
              | _ => Expression_String Value
              end;
      Some (token.Literal Token +:+ " " +:+ id_Value Name +:+ " = " +:+ value +:+ ";")
  | ReturnStatement Token ReturnValue =>
      value ← match ReturnValue with
              | NilExpression => Some EmptyString
              | _ => Expression_String ReturnValue
              end;
      Some (token.Literal Token +:+ " " +:+ value +:+ ";")
  | ExpressionStatement _ Expression =>
      match Expression with
      | NilExpression => Some EmptyString
      | _ => Expression_String Expression
      end
  | BlockStatement b => Block_String b
  end
with Block_String (b : Block) : option string :=
  match b with
  | mkBlock _ Statements =>
      parts ← mapM Statement_String Statements;
      Some (concat_strings parts)
  end.

Definition Program_String (p : Program) : option string :=
  parts ← mapM Statement_String (Statements p);
  Some (concat_strings parts).

End String_methods.

End printing.

(** ** package parser: the Pratt parser

    A parse function is a state transformer on the [Parser]; [None] is
    the model's bound on recursion and loops being exhausted (the Go
    functions themselves neither fail nor panic). *)

Module parsing.

Import tree tokens.

(** Modelled from the spec: the lexer, of which the parser only calls
    [NextToken].  "A pull-based iterator yielding tokens until and
    including a final EOF"; "at end of input: emits EOF (idempotently
    on subsequent calls)".  A lexer is the list of the tokens it has
    yet to yield before EOF. *)
Definition NextToken (l : list token.Token) : token.Token * list token.Token :=
  match l with
  | [] => (token.mkToken token.EOF EmptyString, [])
  | tok :: l' => (tok, l')
  end.

Record Parser : Type :=
  mkParser { l : list token.Token; curToken : token.Token; peekToken : token.Token;
             errors : list string }.

Definition P (A : Type) : Type := Parser -> option (A * Parser).

#[global] Instance P_ret : MRet P := fun A a p => Some (a, p).
#[global] Instance P_bind : MBind P := fun A B f m p =>
  match m p with
  | Some (a, p') => f a p'
  | None => None
  end.

(** Reading a field, and running a step that only changes the parser. *)
Definition get {A} (f : Parser -> A) : P A := fun p => Some (f p, p).
Definition run (f : Parser -> Parser) : P unit := fun p => Some (tt, f p).
Definition out_of_steps {A} : P A := fun _ => None.

Definition LOWEST : nat := 1.
Definition EQUALS : nat := 2.
Definition LESSGREATER : nat := 3.
Definition SUM : nat := 4.
Definition PRODUCT : nat := 5.
Definition PREFIX : nat := 6.
Definition CALL : nat := 7.
Definition INDEX : nat := 8.

Definition precedences : gmap string nat :=
  list_to_map
    [ (EQ, EQUALS); (NEQ, EQUALS); (LT, LESSGREATER); (GT, LESSGREATER);
      (PLUS, SUM); (MINUS, SUM); (SLASH, PRODUCT); (ASTERISK, PRODUCT);
      (LPAREN, CALL); (LBRACKET, INDEX) ].

Definition nextToken (p : Parser) : Parser :=
  let '(tok, l') := NextToken (l p) in
  mkParser l' (peekToken p) tok (errors p).

(** [New(l)]: the parser with both tokens read. *)
Definition New (lexer : list token.Token) : Parser :=
  let zero := token.mkToken EmptyString EmptyString in
  nextToken (nextToken (mkParser lexer zero zero [])).

Definition curTokenIs (t : string) (p : Parser) : bool :=
  String.eqb (token.Type_ (curToken p)) t.

Definition peekTokenIs (t : string) (p : Parser) : bool :=
  String.eqb (token.Type_ (peekToken p)) t.

Definition peekError (t : string) (p : Parser) : Parser :=
  let msg := "期望下一个token是 " +:+ t +:+ "，但是实际是 "
             +:+ token.Type_ (peekToken p) in
  mkParser (l p) (curToken p) (peekToken p) (errors p ++ [msg]).

Definition expectPeek (t : string) : P bool := fun p =>
  if peekTokenIs t p then Some (true, nextToken p)
  else Some (false, peekError t p).

Definition peekPrecedence (p : Parser) : nat :=
  match precedences !! token.Type_ (peekToken p) with
  | Some precedence => precedence
  | None => LOWEST
  end.

Definition curPrecedence (p : Parser) : nat :=
  match precedences !! token.Type_ (curToken p) with
  | Some precedence => precedence
  | None => LOWEST
  end.

Definition noPrefixParseFnError (t : string) (p : Parser) : Parser :=
  let msg := "没有针对 " +:+ t +:+ " 的前缀表达式解析函数" in
  mkParser (l p) (curToken p) (peekToken p) (errors p ++ [msg]).

(** The optional semicolon that ends a statement. *)
Definition skip_semicolon : P unit := fun p =>
  if peekTokenIs SEMICOLON p then Some (tt, nextToken p) else Some (tt, p).

Definition parseIdentifier : P Expression :=
  get (fun p => Identifier (curToken p) (token.Literal (curToken p))).

Definition parseIntegerLiteral : P Expression := fun p =>
  match strconv.ParseInt (token.Literal (curToken p)) with
  | (value, None) => Some (IntegerLiteral (curToken p) value, p)
  | (_, Some _) =>
      let msg := "无法解析 " +:+ parser.Sprintf_q (token.Literal (curToken p))
                 +:+ " 为数字" in
      Some (NilExpression, mkParser (l p) (curToken p) (peekToken p) (errors p ++ [msg]))
  end.

Definition parseStringLiteral : P Expression :=
  get (fun p => StringLiteral (curToken p) (token.Literal (curToken p))).

Definition parseBoolean : P Expression :=
  get (fun p => Boolean (curToken p) (curTokenIs TRUE p)).

(** The body of the loop in [parseFunctionParameters], [n] bounding
    the number of commas. *)
Fixpoint parseFunctionParameters_loop (n : nat) (identifiers : list Ident)
  : P (list Ident) := fun p =>
  if peekTokenIs COMMA p then
    match n with
    | O => None
    | S n' =>
        let p := nextToken (nextToken p) in
        let ident := mkIdent (curToken p) (token.Literal (curToken p)) in
        parseFunctionParameters_loop n' (identifiers ++ [ident]) p
    end
  else Some (identifiers, p).

Definition parseFunctionParameters (n : nat) : P (list Ident) := fun p =>
  if peekTokenIs RPAREN p then Some ([], nextToken p)
  else
    let p := nextToken p in
    let first := mkIdent (curToken p) (token.Literal (curToken p)) in
    (identifiers ← parseFunctionParameters_loop n [first];
     ok ← expectPeek RPAREN;
     if (ok : bool) then mret identifiers else mret []) p.

Section parse_body.

(** [parseExpression] and [parseStatement] one level of recursion down. *)
Variable parseExpression_rec : nat -> P Expression.
Variable parseStatement_rec : P Statement.

Definition parseLetStatement : P Statement :=
  tok ← get curToken;
  ok ← expectPeek token.IDENT;
  if negb ok then mret NilLetStatement else
  name ← get (fun p => mkIdent (curToken p) (token.Literal (curToken p)));
  ok ← expectPeek ASSIGN;
  if negb ok then mret NilLetStatement else
  _ ← run nextToken;
  value ← parseExpression_rec LOWEST;
  _ ← skip_semicolon;
  mret (LetStatement tok name value).

Definition parseReturnStatement : P Statement :=
  tok ← get curToken;
  _ ← run nextToken;
  value ← parseExpression_rec LOWEST;
  _ ← skip_semicolon;
  mret (ReturnStatement tok value).

Definition parseExpressionStatement : P Statement :=
  tok ← get curToken;
  expression ← parseExpression_rec LOWEST;
  _ ← skip_semicolon;
  mret (ExpressionStatement tok expression).

Definition parseStatement_body : P Statement :=
  t ← get (fun p => token.Type_ (curToken p));
  if String.eqb t LET then parseLetStatement
  else if String.eqb t RETURN then parseReturnStatement
  else parseExpressionStatement.

Fixpoint parseExpressionList_loop (n : nat) (args : list Expression)
  : P (list Expression) := fun p =>
  if peekTokenIs COMMA p then
    match n with
    | O => None
    | S n' =>
        (arg ← parseExpression_rec LOWEST;
         parseExpressionList_loop n' (args ++ [arg])) (nextToken (nextToken p))
    end
  else Some (args, p).

Definition parseExpressionList (n : nat) (end_ : string) : P (list Expression) := fun p =>
  if peekTokenIs end_ p then Some ([], nextToken p)
  else
    (first ← parseExpression_rec LOWEST;
     args ← parseExpressionList_loop n [first];
     ok ← expectPeek end_;
     if (ok : bool) then mret args else mret []) (nextToken p).

Definition parseArrayLiteral (n : nat) : P Expression :=
  tok ← get curToken;
  elements ← parseExpressionList n RBRACKET;
  mret (ArrayLiteral tok elements).

Definition parseIndexExpression (leftExpr : Expression) : P Expression :=
  tok ← get curToken;
  _ ← run nextToken;
  index ← parseExpression_rec LOWEST;
  ok ← expectPeek RBRACKET;
  if negb ok then mret NilExpression
  else mret (IndexExpression tok leftExpr index).

Definition parseGroupedExpression : P Expression :=
  _ ← run nextToken;
  expr ← parseExpression_rec LOWEST;
  ok ← expectPeek RPAREN;
  if negb ok then mret NilExpression else mret expr.

Fixpoint parseBlockStatement_loop (n : nat) (statements : list Statement)
  : P (list Statement) := fun p =>
  if negb (curTokenIs RBRACE p) && negb (curTokenIs token.EOF p) then
    match n with
    | O => None
    | S n' =>
        (stmt ← parseStatement_rec;
         _ ← run nextToken;
         parseBlockStatement_loop n'
           match stmt with
           | NilStatement => statements
           | _ => statements ++ [stmt]
           end) p
    end
  else Some (statements, p).

Definition parseBlockStatement (n : nat) : P Block :=
  tok ← get curToken;
  _ ← run nextToken;
  statements ← parseBlockStatement_loop n [];
  mret (mkBlock tok statements).

Definition parseIfExpression (n : nat) : P Expression :=
  tok ← get curToken;
  ok ← expectPeek LPAREN;
  if negb ok then mret NilExpression else
  _ ← run nextToken;
  condition ← parseExpression_rec LOWEST;
  ok ← expectPeek RPAREN;
  if negb ok then mret NilExpression else
  ok ← expectPeek LBRACE;
  if negb ok then mret NilExpression else
  consequence ← parseBlockStatement n;
  has_else ← get (peekTokenIs ELSE);
  if (has_else : bool) then
    _ ← run nextToken;
    ok ← expectPeek LBRACE;
    if negb ok then mret NilExpression else
    alternative ← parseBlockStatement n;
    mret (IfExpression tok condition consequence (Some alternative))
  else mret (IfExpression tok condition consequence None).

Definition parseFunctionLiteral (n : nat) : P Expression :=
  tok ← get curToken;
  ok ← expectPeek LPAREN;
  if negb ok then mret NilExpression else
  parameters ← parseFunctionParameters n;
  ok ← expectPeek LBRACE;
  if negb ok then mret NilExpression else
  body ← parseBlockStatement n;
  mret (FunctionLiteral tok parameters body).

Fixpoint parseHashLiteral_loop (n : nat) (tok : token.Token)
         (pairs : list (Expression * Expression)) : P Expression := fun p =>
  if negb (peekTokenIs RBRACE p) then
    match n with
    | O => None
    | S n' =>
        (_ ← run nextToken;
         key ← parseExpression_rec LOWEST;
         ok ← expectPeek COLON;
         if negb ok then mret NilExpression else
         _ ← run nextToken;
         val ← parseExpression_rec LOWEST;
         at_end ← get (peekTokenIs RBRACE);
         if (at_end : bool) then parseHashLiteral_loop n' tok (Pairs_insert key val pairs)
         else
           ok ← expectPeek COMMA;
           if negb ok then mret NilExpression
           else parseHashLiteral_loop n' tok (Pairs_insert key val pairs)) p
    end
  else
    (ok ← expectPeek RBRACE;
     if negb ok then mret NilExpression else mret (HashLiteral tok pairs)) p.

Definition parseHashLiteral (n : nat) : P Expression :=
  tok ← get curToken;
  parseHashLiteral_loop n tok [].

Definition parsePrefixExpression : P Expression :=
  tok ← get curToken;
  _ ← run nextToken;
  right ← parseExpression_rec PREFIX;
  mret (PrefixExpression tok (token.Literal tok) right).

Definition parseInfixExpression (leftExpr : Expression) : P Expression :=
  tok ← get curToken;
  precedence ← get curPrecedence;
  _ ← run nextToken;
  right ← parseExpression_rec precedence;
  mret (InfixExpression tok leftExpr (token.Literal tok) right).

Definition parseCallExpression (n : nat) (leftExpr : Expression) : P Expression :=
  tok ← get curToken;
  arguments ← parseExpressionList n RPAREN;
  mret (CallExpression tok leftExpr arguments).

(** The table [prefixParseFns], as [New] fills it. *)
Definition prefixParseFns (n : nat) : gmap string (P Expression) :=
  list_to_map
    [ (token.IDENT, parseIdentifier); (token.INT, parseIntegerLiteral);
      (token.STRING, parseStringLiteral); (LBRACKET, parseArrayLiteral n);
      (TRUE, parseBoolean); (FALSE, parseBoolean);
      (BANG, parsePrefixExpression); (MINUS, parsePrefixExpression);
      (LPAREN, parseGroupedExpression); (IF, parseIfExpression n);
      (FUNCTION, parseFunctionLiteral n); (LBRACE, parseHashLiteral n) ].

(** The table [infixParseFns], as [New] fills it. *)
Definition infixParseFns (n : nat) : gmap string (Expression -> P Expression) :=
  list_to_map
    [ (PLUS, parseInfixExpression); (MINUS, parseInfixExpression);
      (ASTERISK, parseInfixExpression); (SLASH, parseInfixExpression);
      (EQ, parseInfixExpression); (NEQ, parseInfixExpression);
      (LT, parseInfixExpression); (GT, parseInfixExpression);
      (LPAREN, parseCallExpression n); (LBRACKET, parseIndexExpression) ].

Fixpoint parseExpression_loop (n steps : nat) (precedence : nat) (leftExpr : Expression)
  : P Expression := fun p =>
  if negb (peekTokenIs SEMICOLON p) && (precedence <? peekPrecedence p)%nat then
    match infixParseFns n !! token.Type_ (peekToken p) with
    | None => Some (leftExpr, p)
    | Some infix =>
        match steps with
        | O => None
        | S steps' =>
            (leftExpr ← infix leftExpr;
             parseExpression_loop n steps' precedence leftExpr) (nextToken p)
        end
    end
  else Some (leftExpr, p).

Definition parseExpression_body (n : nat) (precedence : nat) : P Expression := fun p =>
  match prefixParseFns n !! token.Type_ (curToken p) with
  | None => Some (NilExpression, noPrefixParseFnError (token.Type_ (curToken p)) p)
  | Some prefix =>
      (leftExpr ← prefix; parseExpression_loop n n precedence leftExpr) p
  end.

End parse_body.

(** [parseExpression] and [parseStatement], with the depth of nested
    calls and the length of every loop bounded by [fuel]. *)
Fixpoint parseExpression (fuel : nat) (precedence : nat) : P Expression :=
  match fuel with
  | O => out_of_steps
  | S fuel' =>
      parseExpression_body (parseExpression fuel') (parseStatement fuel') fuel' precedence
  end
with parseStatement (fuel : nat) : P Statement :=
  match fuel with
  | O => out_of_steps
  | S fuel' => parseStatement_body (parseExpression fuel')
  end.

Fixpoint ParseProgram_loop (fuel n : nat) (statements : list Statement)
  : P Program := fun p =>
  if negb (String.eqb (token.Type_ (curToken p)) token.EOF) then
    match n with
    | O => None
    | S n' =>
        (stmt ← parseStatement fuel;
         _ ← run nextToken;
         ParseProgram_loop fuel n'
           match stmt with
           | NilStatement => statements
           | _ => statements ++ [stmt]
           end) p
    end
  else Some (mkProgram statements, p).

Definition ParseProgram (fuel : nat) : P Program := ParseProgram_loop fuel fuel [].

End parsing.

(** ** Notions used to state the properties of the parser *)

Module parse_props.

Import tokens tree parsing.

(** The token types of the eight binary operators. *)
Definition binary_operators : list string :=
  [PLUS; MINUS; ASTERISK; SLASH; EQ; NEQ; LT; GT].

(** The token types that have a prefix parse function. *)
Definition prefix_types : list string :=
  [token.IDENT; token.INT; token.STRING; LBRACKET; TRUE; FALSE; BANG; MINUS;
   LPAREN; IF; FUNCTION; LBRACE].

(** The seven keywords. *)
Definition keyword_spellings : list string :=
  ["fn"; "let"; "true"; "false"; "if"; "else"; "return"].

(** The precedence the parser gives a token type. *)
Definition precedence_of (t : string) : nat :=
  match precedences !! t with
  | Some precedence => precedence
  | None => LOWEST
  end.

Definition ident_token (name : string) : token.Token := token.mkToken token.IDENT name.
Definition ident_node (name : string) : Expression := Identifier (ident_token name) name.
Definition EOF_token : token.Token := token.mkToken token.EOF EmptyString.

(** The parser at the end of the input, with no error recorded. *)
Definition finished : Parser := mkParser [] EOF_token EOF_token [].

(** A parse that keeps what has been recorded and read: the errors it
    starts with are a prefix of the errors it ends with, and the tokens
    it leaves in the lexer are a suffix of those it found there. *)
Definition moves_forward {A} (m : P A) : Prop :=
  forall p a p', m p = Some (a, p') ->
                 errors p `prefix_of` errors p' /\ l p' `suffix_of` l p.

End parse_props.

(** * Properties *)

Import object store evaluator props.
Local Open Scope string_scope.

Ltac unfold_m :=
  unfold mbind, M_bind, mret, M_ret, TypeOf, panic, alloc in *.

(** ** Integer arithmetic *)

Lemma wrap_in_range z : Int64.in_range (Int64.wrap z).
Proof.
  unfold Int64.in_range, Int64.wrap, Int64.min_signed, Int64.max_signed, Int64.modulus.
  pose proof (Z.mod_pos_bound (z + 2 ^ 63) (2 ^ 64) ltac:(lia)). lia.
Qed.

Lemma wrap_congruent z : Int64.wrap z mod 2 ^ 64 = z mod 2 ^ 64.
Proof.
  unfold Int64.wrap, Int64.modulus.
  rewrite Zminus_mod, Zmod_mod, <- Zminus_mod.
  f_equal. lia.
Qed.

Lemma wrap_id z : Int64.in_range z -> Int64.wrap z = z.
Proof.
  unfold Int64.in_range, Int64.wrap, Int64.min_signed, Int64.max_signed, Int64.modulus.
  intros H. rewrite Z.mod_small by lia. lia.
Qed.

(** C9: infix [+], [-], [*] and prefix [-] on Integer operands return
    an Integer, never an Error: the value lies in the signed 64-bit
    range and is congruent modulo 2^64 to the mathematical result, that
    is, it is the result wrapped around in two's complement (and the
    exact result whenever that fits); the state is untouched. *)
Theorem C9_integer_arithmetic_wraps (a b : Z) (s : State) :
  let wrapped (exact r : Z) :=
    Int64.in_range r /\ r mod 2 ^ 64 = exact mod 2 ^ 64 /\
    (Int64.in_range exact -> r = exact) in
  (exists r, evalInfixExpression "+" (Integer a) (Integer b) s = Ok (Integer r, s)
             /\ wrapped (a + b) r) /\
  (exists r, evalInfixExpression "-" (Integer a) (Integer b) s = Ok (Integer r, s)
             /\ wrapped (a - b) r) /\
  (exists r, evalInfixExpression "*" (Integer a) (Integer b) s = Ok (Integer r, s)
             /\ wrapped (a * b) r) /\
  (exists r, evalPrefixExpression "-" (Integer a) s = Ok (Integer r, s)
             /\ wrapped (- a) r).
Proof.
  intros wrapped.
  assert (W : forall z, wrapped z (Int64.wrap z)).
  { intros z. repeat split.
    - apply wrap_in_range.
    - apply wrap_in_range.
    - apply wrap_congruent.
    - apply wrap_id. }
  repeat split.
  - exists (Int64.add a b). split; [reflexivity | apply W].
  - exists (Int64.sub a b). split; [reflexivity | apply W].
  - exists (Int64.mul a b). split; [reflexivity | apply W].
  - exists (Int64.neg a). split; [reflexivity | apply W].
Qed.

Example overflow_wraps :
  evalInfixExpression "+" (Integer 9223372036854775807) (Integer 1) initial_state
  = Ok (Integer (-9223372036854775808), initial_state).
Proof. reflexivity. Qed.

(** ** String operands *)

(** C7: on two String operands, [+] is concatenation and every other
    operator, [==] and [!=] among them, is the unknown-operator Error
    naming STRING, the operator and STRING.  The message text is the
    source's own wording of "unknown operator: ". *)
Theorem C7_string_infix (l r op : string) (s : State) :
  evalInfixExpression "+" (String l) (String r) s = Ok (String (l +:+ r), s) /\
  (op <> "+" ->
   evalInfixExpression op (String l) (String r) s
   = Ok (Error ("未知的操作: STRING " +:+ op +:+ " STRING"), s)) /\
  evalInfixExpression "==" (String l) (String r) s
  = Ok (Error "未知的操作: STRING == STRING", s) /\
  evalInfixExpression "!=" (String l) (String r) s
  = Ok (Error "未知的操作: STRING != STRING", s).
Proof.
  repeat split; try reflexivity.
  intros Hop.
  unfold evalInfixExpression, both_have_type. unfold_m. cbn.
  unfold evalStringInfixExpression.
  destruct (String.eqb_spec op "+") as [-> | _]; [contradiction | reflexivity].
Qed.

Lemma C7_string_infix_witness :
  "<" <> "+" /\
  evalInfixExpression "<" (String "a") (String "b") initial_state
  = Ok (Error "未知的操作: STRING < STRING", initial_state).
Proof.
  split; [discriminate |].
  apply (C7_string_infix "a" "b" "<" initial_state). discriminate.
Defined.

(** ** Array indexing *)

Lemma evalArrayIndexExpression_in_bounds a els i s :
  0 <= i <= Z.of_nat (length els) - 1 ->
  exists e, els !! Z.to_nat i = Some e /\
            evalArrayIndexExpression (Array a els) (Integer i) s = Ok (e, s).
Proof.
  intros Hi.
  destruct (lookup_lt_is_Some_2 els (Z.to_nat i)) as [e He]; [lia |].
  exists e. split; [exact He |].
  unfold evalArrayIndexExpression.
  replace (Z.ltb i 0) with false by (symmetry; apply Z.ltb_ge; lia).
  replace (Z.gtb i (Z.of_nat (length els) - 1)) with false
    by (symmetry; rewrite Z.gtb_ltb; apply Z.ltb_ge; lia).
  cbn [orb]. rewrite He. reflexivity.
Qed.

Lemma evalArrayIndexExpression_out_of_bounds a els i s :
  i < 0 \/ i > Z.of_nat (length els) - 1 ->
  evalArrayIndexExpression (Array a els) (Integer i) s = Ok (NULL, s).
Proof.
  intros Hi. unfold evalArrayIndexExpression.
  destruct (Z.ltb_spec i 0) as [_ | Hge]; [reflexivity |].
  replace (Z.gtb i (Z.of_nat (length els) - 1)) with true
    by (symmetry; rewrite Z.gtb_ltb; apply Z.ltb_lt; lia).
  reflexivity.
Qed.

(** C8: when the left operand of an index expression evaluates to an
    Array of elements [els] and the index operand to an Integer [i],
    the index expression returns (it neither panics nor runs on): the
    element at position [i] if [0 <= i <= len - 1], and NULL, not an
    Error, for every other [i], negative ones included. *)
Theorem C8_array_index (map_range : list (ast.Expression * ast.Expression) ->
                                    list (ast.Expression * ast.Expression))
        (fuel : nat) (left index : ast.Expression) (env : nat)
        (s s1 s2 : State) (a : nat) (els : list Object) (i : Z) :
  Eval map_range fuel (ast.Expr left) env s = Ok (Array a els, s1) ->
  Eval map_range fuel (ast.Expr index) env s1 = Ok (Integer i, s2) ->
  (0 <= i <= Z.of_nat (length els) - 1 ->
   exists e, els !! Z.to_nat i = Some e /\
             Eval map_range (S fuel) (ast.Expr (ast.IndexExpression left index)) env s
             = Ok (e, s2)) /\
  (i < 0 \/ i > Z.of_nat (length els) - 1 ->
   Eval map_range (S fuel) (ast.Expr (ast.IndexExpression left index)) env s
   = Ok (NULL, s2) /\ isError NULL = false).
Proof.
  intros Hl Hi.
  assert (Hstep : Eval map_range (S fuel) (ast.Expr (ast.IndexExpression left index)) env s
                  = evalArrayIndexExpression (Array a els) (Integer i) s2).
  { cbn [Eval Eval_body]. unfold_m. rewrite Hl. cbn. rewrite Hi. reflexivity. }
  rewrite Hstep. split.
  - apply evalArrayIndexExpression_in_bounds.
  - intros Ho. split; [by apply evalArrayIndexExpression_out_of_bounds | reflexivity].
Qed.

Lemma C8_array_index_witness :
  let arr := ast.ArrayLiteral [ast.IntegerLiteral 7; ast.IntegerLiteral 8] in
  let s1 := mkState (envs initial_state) 1 [] in
  Eval id 3 (ast.Expr (ast.IndexExpression arr (ast.IntegerLiteral 1))) 0%nat initial_state
  = Ok (Integer 8, s1) /\
  Eval id 3 (ast.Expr (ast.IndexExpression arr (ast.IntegerLiteral (-1)))) 0%nat initial_state
  = Ok (NULL, s1) /\
  Eval id 3 (ast.Expr (ast.IndexExpression arr (ast.IntegerLiteral 2))) 0%nat initial_state
  = Ok (NULL, s1).
Proof.
  intros arr s1.
  pose proof (fun i H2 =>
    C8_array_index id 2 arr (ast.IntegerLiteral i) 0%nat initial_state s1 s1 0%nat
                   [Integer 7; Integer 8] i eq_refl H2) as H.
  split; [| split].
  - destruct (H 1 eq_refl) as [Hin _].
    destruct Hin as (e & He & Hev); [cbn; lia |].
    cbn in He. injection He as <-. exact Hev.
  - destruct (H (-1) eq_refl) as [_ Hout]. apply Hout. left. lia.
  - destruct (H 2 eq_refl) as [_ Hout]. apply Hout. right. cbn. lia.
Defined.

(** ** Programs, blocks and return values *)

Section program_loop.

Variable ev : ast.Node -> nat -> M Object.
Variable env : nat.

(** Statements that do not end the loop hand the loop over to the
    statements after them. *)
Lemma evalProgram_loop_passes pre :
  forall post r0 s s1,
    passes ev env pre s s1 ->
    exists r1, evalProgram_loop ev r0 (pre ++ post) env s
               = evalProgram_loop ev r1 post env s1.
Proof.
  induction pre as [| stmt pre IH]; intros post r0 s s1 Hp.
  - inversion Hp; subst. exists r0. reflexivity.
  - inversion Hp as [| ? ? ? r sm ? Hev Hend Hrest]; subst.
    destruct (IH post r sm s1 Hrest) as [r1 Hr1].
    exists r1. cbn [app evalProgram_loop]. unfold mbind, M_bind.
    rewrite Hev. rewrite <- Hr1.
    destruct r; cbn in Hend; try discriminate; reflexivity.
Qed.

End program_loop.

(** C10, as amended: a Program with zero statements returns Go's nil
    interface, and so does a Program all of whose statements are
    executed and whose last one is a let statement whose value
    expression evaluates to something that is no Error (the let then
    binds the name in the current environment).  Nil is none of the
    ten object types: it has no [Type()], and it is not NULL. *)
Theorem C10_nil_result (map_range : list (ast.Expression * ast.Expression) ->
                                    list (ast.Expression * ast.Expression))
        (fuel : nat) (env : nat) (s : State) :
  Eval map_range (S fuel) (ast.Program []) env s = Ok (Nil, s) /\
  (forall pre Name Value s1 val s2 s3,
      passes (Eval map_range (S fuel)) env pre s s1 ->
      Eval map_range fuel (ast.Expr Value) env s1 = Ok (val, s2) ->
      isError val = false ->
      Set_ env Name val s2 = Ok (tt, s3) ->
      Eval map_range (S (S fuel))
           (ast.Program (pre ++ [ast.LetStatement Name Value])) env s
      = Ok (Nil, s3)) /\
  Type_ Nil = None /\ Nil <> NULL.
Proof.
  split; [reflexivity |]. split; [| split; [reflexivity | discriminate]].
  intros pre Name Value s1 val s2 s3 Hpre Hval Herr Hset.
  change (Eval map_range (S (S fuel)) (ast.Program (pre ++ [ast.LetStatement Name Value])) env s)
    with (evalProgram_loop (Eval map_range (S fuel)) Nil
                           (pre ++ [ast.LetStatement Name Value]) env s).
  destruct (evalProgram_loop_passes _ _ pre [ast.LetStatement Name Value] Nil s s1 Hpre)
    as [r1 ->].
  cbn [evalProgram_loop Eval Eval_body]. unfold mbind, M_bind, mret, M_ret.
  rewrite Hval, Herr, Hset. reflexivity.
Qed.

Lemma C10_nil_result_witness :
  Eval id 3 (ast.Program [ast.ExpressionStatement (ast.IntegerLiteral 1);
                          ast.LetStatement "x" (ast.IntegerLiteral 5)])
       0%nat initial_state
  = Ok (Nil, mkState [mkEnvironment {[ "x" := Integer 5 ]} None] 0 []).
Proof.
  refine (proj1 (proj2 (C10_nil_result id 1 0%nat initial_state))
                [ast.ExpressionStatement (ast.IntegerLiteral 1)] "x" (ast.IntegerLiteral 5)
                initial_state (Integer 5) initial_state _ _ eq_refl eq_refl eq_refl).
  eapply passes_cons; [reflexivity | reflexivity | apply passes_nil].
Defined.

(** C10 as stated fails: the let statement of [let x = y;] is the last
    (and only) statement executed, yet with [y] unbound the program
    returns an Error value, not nil. *)
Lemma C10_let_error_counterexample :
  Eval id 3 (ast.Program [ast.LetStatement "x" (ast.Identifier "y")]) 0%nat initial_state
  = Ok (Error "变量未定义: y", initial_state) /\
  Error "变量未定义: y" <> Nil.
Proof. split; [vm_compute; reflexivity | discriminate]. Qed.

(** A block hands a ReturnValue on as it is, wrapper included, and
    does not execute the statements after it. *)
Lemma evalBlockStatement_keeps_wrapper ev env stmt rest s a v s1 :
  ev (ast.Stmt stmt) env s = Ok (ReturnValue a v, s1) ->
  evalBlockStatement ev (stmt :: rest) env s = Ok (ReturnValue a v, s1).
Proof.
  intros H. unfold evalBlockStatement. cbn [evalBlockStatement_loop].
  unfold mbind, M_bind. rewrite H. reflexivity.
Qed.

(** C3 fails on the code: [return if (true) { return 1; };] makes the
    return statement wrap the still-wrapped ReturnValue of the inner
    block, [evalProgram] takes off one wrapper only, and the final
    result of the program is a ReturnValue. *)
Theorem C3_nested_return_escapes :
  Eval id 10
       (ast.Program
          [ast.ReturnStatement
             (ast.IfExpression (ast.Boolean true)
                               [ast.ReturnStatement (ast.IntegerLiteral 1)] None)])
       0%nat initial_state
  = Ok (ReturnValue 0 (Integer 1), mkState (envs initial_state) 2 []).
Proof. vm_compute. reflexivity. Qed.

(** ** Function application *)

Section extend_env.

Variable args : list Object.

Lemma extendFunctionEnv_loop_binds params :
  forall idx env s fr,
    envs s !! env = Some fr ->
    (idx + length params <= length args)%nat ->
    extendFunctionEnv_loop env idx params args s
    = Ok (tt, mkState (<[env := mkEnvironment (bound args params idx (env_store fr))
                                              (env_outer fr)]> (envs s))
                      (next_addr s) (stdout s)).
Proof.
  induction params as [| param params IH]; intros idx env s fr Hfr Hlen.
  - cbn. rewrite list_insert_id; [by destruct s | by destruct fr].
  - cbn [length] in Hlen.
    destruct (lookup_lt_is_Some_2 args idx ltac:(lia)) as [arg Harg].
    cbn [extendFunctionEnv_loop]. rewrite Harg.
    unfold mbind, M_bind, Set_. rewrite Hfr.
    erewrite IH; [| apply list_lookup_insert_eq; by eapply lookup_lt_Some | cbn; lia].
    cbn [envs next_addr stdout env_store env_outer].
    rewrite list_insert_insert_eq.
    unfold bound. rewrite (drop_S _ _ _ Harg). reflexivity.
Qed.

(** A parameter without an argument at its position makes the loop
    panic, after the parameters before it have been bound. *)
Lemma extendFunctionEnv_loop_missing params :
  forall idx env s,
    is_Some (envs s !! env) ->
    (idx <= length args < idx + length params)%nat ->
    extendFunctionEnv_loop env idx params args s = Panic index_out_of_range.
Proof.
  induction params as [| param params IH]; intros idx env s Hfr Hlen.
  - cbn in Hlen. lia.
  - cbn [length] in Hlen. cbn [extendFunctionEnv_loop].
    destruct (args !! idx) as [arg |] eqn:Harg; [| reflexivity].
    apply lookup_lt_Some in Harg.
    destruct Hfr as [fr Hfr].
    unfold mbind, M_bind, Set_. rewrite Hfr.
    apply IH; [| cbn; lia].
    cbn [envs]. rewrite list_lookup_insert_eq; [eauto | by eapply lookup_lt_Some].
Qed.

End extend_env.

(** With at least as many arguments as parameters, [extendFunctionEnv]
    returns a new environment whose outer is the function's captured
    one and in which the parameters are bound by position; arguments
    beyond the parameters are ignored. *)
Lemma extendFunctionEnv_enough_arguments Parameters fnEnv args s :
  (length Parameters <= length args)%nat ->
  extendFunctionEnv Parameters fnEnv args s
  = Ok (length (envs s),
        mkState (envs s ++ [mkEnvironment (bound args Parameters 0 ∅) (Some fnEnv)])
                (next_addr s) (stdout s)).
Proof.
  intros Hlen. unfold extendFunctionEnv, NewEnclosedEnvironment, mbind, M_bind.
  erewrite (extendFunctionEnv_loop_binds args Parameters 0);
    [| cbn [envs]; apply list_lookup_middle; reflexivity | cbn; lia].
  cbn [envs next_addr stdout env_store env_outer mret M_ret].
  rewrite insert_app_r_alt by reflexivity. rewrite Nat.sub_diag. reflexivity.
Qed.

(** With fewer arguments than parameters, applying a Function panics,
    whatever its body. *)
Lemma applyFunction_missing_arguments map_range_ev a Parameters Body fnEnv args s :
  (length args < length Parameters)%nat ->
  applyFunction map_range_ev (Function a Parameters Body fnEnv) args s
  = Panic index_out_of_range.
Proof.
  intros Hlen.
  unfold applyFunction, extendFunctionEnv, NewEnclosedEnvironment, mbind, M_bind.
  rewrite (extendFunctionEnv_loop_missing args Parameters 0); [reflexivity | | cbn; lia].
  cbn [envs]. rewrite list_lookup_middle by reflexivity. eauto.
Qed.

(** C2 fails on the code: calling [fn(x) { x }] with no argument reads
    [args[0]] of an empty argument slice, and the evaluation panics. *)
Theorem C2_missing_argument_panics :
  Eval id 10
       (ast.Program
          [ast.ExpressionStatement
             (ast.CallExpression
                (ast.FunctionLiteral ["x"] [ast.ExpressionStatement (ast.Identifier "x")])
                [])])
       0%nat initial_state
  = Panic index_out_of_range.
Proof. vm_compute. reflexivity. Qed.

(** With at least as many arguments as parameters the call goes
    through: the new environment has the captured one as its outer,
    the parameters are bound by position and surplus arguments are
    ignored. *)
Example surplus_argument_ignored :
  Eval id 10
       (ast.Program
          [ast.ExpressionStatement
             (ast.CallExpression
                (ast.FunctionLiteral ["x"] [ast.ExpressionStatement (ast.Identifier "x")])
                [ast.IntegerLiteral 3; ast.IntegerLiteral 4])])
       0%nat initial_state
  = Ok (Integer 3,
        mkState [mkEnvironment ∅ None; mkEnvironment {[ "x" := Integer 3 ]} (Some 0%nat)]
                1 []).
Proof. vm_compute. reflexivity. Qed.

(** ** Builtins *)

(** C6 fails on the code: [last(1)] is answered with the message of
    [first]; [rest] and [push] share the same copied message. *)
Theorem C6_last_reports_first :
  call_builtin "last" [Integer 1] initial_state
  = Ok (Error "first不支持的参数类型，INTEGER", initial_state) /\
  call_builtin "rest" [Integer 1] initial_state
  = Ok (Error "first不支持的参数类型，INTEGER", initial_state) /\
  call_builtin "push" [Integer 1; Integer 2] initial_state
  = Ok (Error "first不支持的参数类型，INTEGER", initial_state) /\
  call_builtin "len" [Integer 1] initial_state
  = Ok (Error "len不支持的参数类型，INTEGER", initial_state).
Proof. repeat split; vm_compute; reflexivity. Qed.

(** The same through [Eval], for the program [last(1)]. *)
Example last_of_integer :
  Eval id 10
       (ast.Program
          [ast.ExpressionStatement
             (ast.CallExpression (ast.Identifier "last") [ast.IntegerLiteral 1])])
       0%nat initial_state
  = Ok (Error "first不支持的参数类型，INTEGER", initial_state).
Proof. vm_compute. reflexivity. Qed.

(** ** Hash keys *)

Lemma to_uint64_inj a b :
  Int64.in_range a -> Int64.in_range b ->
  Int64.to_uint64 a = Int64.to_uint64 b -> a = b.
Proof.
  unfold Int64.in_range, Int64.to_uint64, Int64.min_signed, Int64.max_signed,
    Int64.modulus.
  intros Ha Hb H.
  assert (Hd : (a - b) mod 2 ^ 64 = 0).
  { rewrite Zminus_mod, H, Z.sub_diag. reflexivity. }
  apply Z.mod_divide in Hd; [| lia].
  destruct Hd as [k Hk]. nia.
Qed.

(** C5, as amended: the hash keys of two Integers (64-bit values) are
    equal exactly when the Integers are, and likewise for two Booleans;
    two Strings have equal hash keys exactly when their FNV-1a hashes
    agree, so equal Strings have equal hash keys, while the converse is
    not promised. *)
Theorem C5_hash_key_equality :
  (forall a b, Int64.in_range a -> Int64.in_range b ->
               (HashKey_of (Integer a) = HashKey_of (Integer b) <-> a = b)) /\
  (forall a b : bool, HashKey_of (Boolean a) = HashKey_of (Boolean b) <-> a = b) /\
  (forall a b : string,
      (HashKey_of (String a) = HashKey_of (String b) <-> Sum64a a = Sum64a b) /\
      (a = b -> HashKey_of (String a) = HashKey_of (String b))).
Proof.
  split; [| split].
  - intros a b Ha Hb. split; [| by intros ->].
    cbn. intros H. apply to_uint64_inj; [done | done | congruence].
  - intros a b. split; [| by intros ->].
    destruct a, b; cbn; congruence.
  - intros a b. split; [| by intros ->].
    cbn. split; [congruence | by intros ->].
Qed.

Lemma C5_hash_key_equality_witness :
  Int64.in_range (-1) /\ Int64.in_range 5 /\
  (HashKey_of (Integer (-1)) = HashKey_of (Integer 5) <-> -1 = 5).
Proof.
  assert (H1 : Int64.in_range (-1)) by (vm_compute; split; discriminate).
  assert (H5 : Int64.in_range 5) by (vm_compute; split; discriminate).
  split; [exact H1 |]. split; [exact H5 |].
  exact (proj1 C5_hash_key_equality (-1) 5 H1 H5).
Defined.

(** C5 as stated fails for Strings: these two different Strings have the
    same FNV-1a hash, hence the same hash key. *)
Lemma C5_string_collision_counterexample :
  HashKey_of (String "kgkpajhfpbeelekc") = HashKey_of (String "liekkbdhapogfael") /\
  String "kgkpajhfpbeelekc" <> String "liekkbdhapogfael".
Proof. split; [vm_compute; reflexivity | discriminate]. Qed.

(** What the collision does to a program: the second string finds the
    entry stored under the first. *)
Example collision_reads_other_key :
  Eval id 10
       (ast.Program
          [ast.ExpressionStatement
             (ast.IndexExpression
                (ast.HashLiteral [(ast.StringLiteral "kgkpajhfpbeelekc", ast.IntegerLiteral 1)])
                (ast.StringLiteral "liekkbdhapogfael"))])
       0%nat initial_state
  = Ok (Integer 1, mkState (envs initial_state) 1 []).
Proof. vm_compute. reflexivity. Qed.

(** ** Hash literals *)

Lemma insert_all_app kvs1 kvs2 m :
  insert_all (kvs1 ++ kvs2)%list m = insert_all kvs2 (insert_all kvs1 m).
Proof. unfold insert_all. apply fold_left_app. Qed.

Lemma insert_all_lookup_other kvs :
  forall m hk, hk ∉ kvs.*1 -> insert_all kvs m !! hk = m !! hk.
Proof.
  induction kvs as [| [k p] kvs IH]; intros m hk Hnot; [reflexivity |].
  cbn in Hnot. apply not_elem_of_cons in Hnot as [Hne Hnot].
  change (insert_all ((k, p) :: kvs) m) with (insert_all kvs (<[k := p]> m)).
  rewrite IH by exact Hnot. by rewrite lookup_insert_ne.
Qed.

(** The entry under a hash key is the one inserted last. *)
Lemma insert_all_lookup_last kvs1 hk p kvs2 m :
  hk ∉ kvs2.*1 -> insert_all (kvs1 ++ (hk, p) :: kvs2)%list m !! hk = Some p.
Proof.
  intros Hnot. rewrite insert_all_app.
  change (insert_all ((hk, p) :: kvs2) (insert_all kvs1 m))
    with (insert_all kvs2 (<[hk := p]> (insert_all kvs1 m))).
  rewrite insert_all_lookup_other by exact Hnot. apply lookup_insert_eq.
Qed.

Section hash_loop.

Variable ev : ast.Node -> nat -> M Object.
Variable env : nat.

Lemma evalHashLiteral_loop_visits todo :
  forall pairs s kvs s',
    evaluates_pairs ev env todo s kvs s' ->
    evalHashLiteral_loop ev pairs todo env s
    = Ok (Hash (next_addr s') (insert_all kvs pairs),
          mkState (envs s') (S (next_addr s')) (stdout s')).
Proof.
  induction todo as [| [k v] todo IH]; intros pairs s kvs s' H.
  - inversion H; subst. reflexivity.
  - inversion H as [| ? ? ? ? key s1 hashed value s2 kvs' ? Hk Hke Hh Hv Hve Hrest];
      subst.
    cbn [evalHashLiteral_loop]. unfold mbind, M_bind.
    rewrite Hk, Hke, Hh, Hv, Hve.
    rewrite (IH _ _ _ _ Hrest). reflexivity.
Qed.

End hash_loop.

(** C1, as amended: the pairs of a hash literal are evaluated in the
    order in which the Go map of the literal is ranged over (the order
    [map_range] gives, which need not be the source order), the key of
    a pair before its value; when no key or value is an Error and all
    keys are hashable, the result is the Hash that holds, under each
    hash key, the pair visited last with that key (a later visit
    overwrites an earlier one) and nothing under any other key.  For a
    given order of the visit the result is thus determined by the
    literal and the state. *)
Theorem C1_hash_literal_in_range_order
        (map_range : list (ast.Expression * ast.Expression) ->
                     list (ast.Expression * ast.Expression))
        (fuel : nat) (Pairs : list (ast.Expression * ast.Expression)) (env : nat)
        (s s' : State) (kvs : list (HashKey * HashPair Object)) :
  evaluates_pairs (Eval map_range fuel) env (map_range Pairs) s kvs s' ->
  exists pairs,
    Eval map_range (S fuel) (ast.Expr (ast.HashLiteral Pairs)) env s
    = Ok (Hash (next_addr s') pairs, mkState (envs s') (S (next_addr s')) (stdout s')) /\
    (forall kvs1 hk p kvs2,
        kvs = (kvs1 ++ (hk, p) :: kvs2)%list -> hk ∉ kvs2.*1 -> pairs !! hk = Some p) /\
    (forall hk, hk ∉ kvs.*1 -> pairs !! hk = None).
Proof.
  intros H. exists (insert_all kvs ∅). split; [| split].
  - cbn [Eval Eval_body]. unfold evalHashLiteral.
    apply evalHashLiteral_loop_visits. exact H.
  - intros kvs1 hk p kvs2 -> Hnot. by apply insert_all_lookup_last.
  - intros hk Hnot. rewrite insert_all_lookup_other by exact Hnot. apply lookup_empty.
Qed.

Lemma C1_hash_literal_in_range_order_witness :
  exists pairs,
    Eval reverse 2 (ast.Expr duplicate_key_literal) 0%nat initial_state
    = Ok (Hash 0 pairs, mkState (envs initial_state) 1 []) /\
    pairs !! mkHashKey INTEGER_OBJ 1 = Some (mkHashPair (Integer 1) (Integer 10)).
Proof.
  destruct (C1_hash_literal_in_range_order
              reverse 1
              [(ast.IntegerLiteral 1, ast.IntegerLiteral 10);
               (ast.IntegerLiteral 1, ast.IntegerLiteral 20)]
              0%nat initial_state initial_state
              [(mkHashKey INTEGER_OBJ 1, mkHashPair (Integer 1) (Integer 20));
               (mkHashKey INTEGER_OBJ 1, mkHashPair (Integer 1) (Integer 10))])
    as (pairs & Hev & Hlast & _).
  - repeat (eapply evaluates_cons; [reflexivity ..|]). apply evaluates_nil.
  - exists pairs. split; [exact Hev |].
    apply (Hlast [(mkHashKey INTEGER_OBJ 1, mkHashPair (Integer 1) (Integer 20))]
                 _ _ []); [reflexivity | apply not_elem_of_nil].
Defined.

(** C1 as stated fails: a Go map of two pairs may be ranged over second
    pair first, and then the first pair of [{1: 10, 1: 20}] overwrites
    the second.  The two orders give different Hash values for the
    same literal in the same state. *)
Lemma C1_source_order_counterexample :
  exists in_source_order in_other_order,
    Eval id 2 (ast.Expr duplicate_key_literal) 0%nat initial_state
    = Ok (Hash 0 in_source_order, mkState (envs initial_state) 1 []) /\
    Eval reverse 2 (ast.Expr duplicate_key_literal) 0%nat initial_state
    = Ok (Hash 0 in_other_order, mkState (envs initial_state) 1 []) /\
    in_source_order !! mkHashKey INTEGER_OBJ 1 = Some (mkHashPair (Integer 1) (Integer 20)) /\
    in_other_order !! mkHashKey INTEGER_OBJ 1 = Some (mkHashPair (Integer 1) (Integer 10)) /\
    in_source_order <> in_other_order.
Proof.
  eexists _, _. split; [vm_compute; reflexivity |]. split; [vm_compute; reflexivity |].
  split; [vm_compute; reflexivity |]. split; [vm_compute; reflexivity |].
  intros H.
  apply (f_equal (fun m : gmap HashKey (HashPair Object) => m !! mkHashKey INTEGER_OBJ 1)) in H.
  vm_compute in H. discriminate.
Qed.

(** ** Integer literals *)

Section parse_digits.

Import strconv.
Local Open Scope Z_scope.

Lemma is_digit_range c : is_digit c = true -> 48 <= c <= 57.
Proof. unfold is_digit. intros H. apply andb_true_iff in H as [H1 H2]. lia. Qed.

Lemma lower_digit c : is_digit c = true -> lower c = c.
Proof.
  intros H. apply is_digit_range in H.
  assert (Hc : c = 48 \/ c = 49 \/ c = 50 \/ c = 51 \/ c = 52 \/ c = 53 \/
               c = 54 \/ c = 55 \/ c = 56 \/ c = 57) by lia.
  repeat (destruct Hc as [-> | Hc]; [reflexivity |]). subst. reflexivity.
Qed.

Lemma digit_of_digit c : is_digit c = true -> digit_of c = Some (c - 48).
Proof. unfold digit_of. by intros ->. Qed.

Lemma digits_value_ge base ds :
  1 <= base -> forall acc, 0 <= acc -> forallb is_digit ds = true ->
  acc <= digits_value base acc ds.
Proof.
  intros Hb. induction ds as [| c ds IH]; intros acc Hacc Hd; [reflexivity |].
  cbn in Hd. apply andb_true_iff in Hd as [Hc Hd]. apply is_digit_range in Hc.
  change (digits_value base acc (c :: ds))
    with (digits_value base (acc * base + (c - 48)) ds).
  specialize (IH (acc * base + (c - 48)) ltac:(nia) Hd). nia.
Qed.

(** The scan of a string of digits in base 8 or 10: it ends without
    error exactly when every digit is below the base and the number
    fits in 64 bits, and then returns the number. *)
Lemma ParseUint_loop_digits base ds :
  base = 8 \/ base = 10 ->
  forall n, forallb is_digit ds = true -> 0 <= n <= maxUint64 ->
  let r := ParseUint_loop base (maxUint64 / base + 1) (2 ^ 64 - 1) n false ds in
  (digits_below base ds = true /\ digits_value base n ds <= maxUint64 /\
   r = (digits_value base n ds, false, None)) \/
  ((digits_below base ds = false \/ digits_value base n ds > maxUint64) /\
   (r = (0, false, Some ErrSyntax) \/ r = (2 ^ 64 - 1, false, Some ErrRange))).
Proof.
  intros Hbase. induction ds as [| c ds IH]; intros n Hd Hn r.
  - left. repeat split. exact (proj2 Hn).
  - cbn in Hd. apply andb_true_iff in Hd as [Hc Hd].
    pose proof (is_digit_range c Hc) as Hcr.
    subst r. cbn [ParseUint_loop].
    replace (c =? 95) with false by (symmetry; apply Z.eqb_neq; lia).
    rewrite (digit_of_digit c Hc).
    unfold digits_below. cbn [forallb]. rewrite Hc. cbn [andb].
    fold (digits_below base ds).
    change (digits_value base n (c :: ds))
      with (digits_value base (n * base + (c - 48)) ds).
    destruct (Z.ltb_spec (c - 48) base) as [Hlt | Hge].
    2:{ right. split; [by left |].
        replace (c - 48 >=? base) with true by (symmetry; apply Z.geb_le; lia).
        by left. }
    replace (c - 48 >=? base) with false
      by (symmetry; rewrite Z.geb_leb; apply Z.leb_gt; lia).
    cbn [andb].
    pose proof (digits_value_ge base ds ltac:(lia) (n * base + (c - 48)) ltac:(nia) Hd)
      as Hmono.
    assert (Hcut : maxUint64 / base + 1 <= n <-> maxUint64 < n * base).
    { destruct Hbase as [-> | ->].
      - replace (maxUint64 / 8 + 1) with 2305843009213693952 by reflexivity.
        unfold maxUint64. lia.
      - replace (maxUint64 / 10 + 1) with 1844674407370955162 by reflexivity.
        unfold maxUint64. lia. }
    destruct (Z.geb_spec n (maxUint64 / base + 1)) as [Hover | Hfit].
    { right. split; [right; lia | by right]. }
    assert (Hnb : n * base <= maxUint64) by lia.
    unfold maxUint64 in Hnb.
    destruct (Z_le_gt_dec (n * base + (c - 48)) (2 ^ 64 - 1)) as [Hsum | Hsum].
    + rewrite (Z.mod_small (n * base + (c - 48)) (2 ^ 64)) by nia.
      replace (n * base + (c - 48) <? n * base) with false
        by (symmetry; apply Z.ltb_ge; lia).
      replace (n * base + (c - 48) >? 2 ^ 64 - 1) with false
        by (symmetry; rewrite Z.gtb_ltb; apply Z.ltb_ge; lia).
      cbn [orb]. apply IH; [exact Hd | unfold maxUint64; nia].
    + right. split; [right; unfold maxUint64; lia |]. right.
      replace ((n * base + (c - 48)) mod 2 ^ 64) with (n * base + (c - 48) - 2 ^ 64).
      2:{ symmetry. rewrite <- (Z.mod_small (n * base + (c - 48) - 2 ^ 64) (2 ^ 64)) by lia.
          rewrite Zminus_mod, Z_mod_same_full, Z.sub_0_r, Zmod_mod. reflexivity. }
      replace (n * base + (c - 48) - 2 ^ 64 <? n * base) with true
        by (symmetry; apply Z.ltb_lt; lia).
      reflexivity.
Qed.

End parse_digits.

Section parse_int.

Import strconv.
Local Open Scope Z_scope.

Lemma base_prefix_digits bs :
  forallb is_digit bs = true -> base_prefix bs = leading_zero_reading bs.
Proof.
  destruct bs as [| c0 rest]; [reflexivity |]. cbn [forallb].
  intros H. apply andb_true_iff in H as [_ Hrest].
  unfold base_prefix, leading_zero_reading.
  destruct (c0 =? 48); [| reflexivity].
  destruct rest as [| c1 [| c2 rest]]; [reflexivity | reflexivity |].
  cbn [forallb] in Hrest. apply andb_true_iff in Hrest as [Hc1 _].
  rewrite (lower_digit c1 Hc1). apply is_digit_range in Hc1.
  repeat match goal with
         | |- context [c1 =? ?k] =>
             replace (c1 =? k) with false by (symmetry; apply Z.eqb_neq; lia)
         end.
  reflexivity.
Qed.

(** [ParseUint] on a non-empty string of digits. *)
Lemma ParseUint_digits bs :
  bs <> [] -> forallb is_digit bs = true ->
  let base := (leading_zero_reading bs).1 in
  let ds := (leading_zero_reading bs).2 in
  (digits_below base ds = true /\ digits_value base 0 ds <= maxUint64 /\
   ParseUint bs = (digits_value base 0 ds, None)) \/
  ((digits_below base ds = false \/ digits_value base 0 ds > maxUint64) /\
   (ParseUint bs = (0, Some ErrSyntax) \/ ParseUint bs = (2 ^ 64 - 1, Some ErrRange))).
Proof.
  intros Hne Hd base ds.
  assert (Hbase : base = 8 \/ base = 10).
  { subst base. destruct bs as [| c rest]; [by right |].
    cbn. destruct (c =? 48); [by left | by right]. }
  assert (Hds : forallb is_digit ds = true).
  { subst ds. destruct bs as [| c rest]; [reflexivity |].
    cbn. cbn in Hd. apply andb_true_iff in Hd as [Hc Hrest].
    destruct (c =? 48); cbn; [exact Hrest | by rewrite Hc]. }
  unfold ParseUint. destruct bs as [| c rest]; [done |].
  rewrite (base_prefix_digits (c :: rest) Hd).
  rewrite (surjective_pairing (leading_zero_reading (c :: rest))).
  fold base ds. cbv beta iota.
  destruct (ParseUint_loop_digits base ds Hbase 0 Hds ltac:(unfold maxUint64; lia))
    as [(Hb & Hv & ->) | [Hbad [-> | ->]]].
  - left. by repeat split.
  - right. split; [exact Hbad | by left].
  - right. split; [exact Hbad | by right].
Qed.

(** [ParseInt] on the lexeme of an INT token. *)
Lemma ParseInt_digits (lexeme : string) :
  bytes lexeme <> [] -> forallb is_digit (bytes lexeme) = true ->
  let base := (leading_zero_reading (bytes lexeme)).1 in
  let ds := (leading_zero_reading (bytes lexeme)).2 in
  if digits_below base ds && (digits_value base 0 ds <=? Int64.max_signed)
  then ParseInt lexeme = (digits_value base 0 ds, None)
  else exists v e, ParseInt lexeme = (v, Some e).
Proof.
  intros Hne Hd base ds.
  pose proof (ParseUint_digits (bytes lexeme) Hne Hd) as HU.
  cbv zeta in HU. fold base ds in HU.
  assert (Hds : forallb is_digit ds = true).
  { subst ds. destruct (bytes lexeme) as [| c rest]; [reflexivity |].
    cbn. cbn in Hd. apply andb_true_iff in Hd as [Hc Hrest].
    destruct (c =? 48); cbn; [exact Hrest | by rewrite Hc]. }
  assert (Hbase : 1 <= base).
  { subst base. destruct (bytes lexeme) as [| c rest]; [cbn; lia |].
    cbn. destruct (c =? 48); cbn; lia. }
  pose proof (digits_value_ge base ds Hbase 0 ltac:(lia) Hds) as Hpos.
  unfold ParseInt.
  destruct (bytes lexeme) as [| c rest] eqn:Ebs; [done |].
  cbn [forallb] in Hd. apply andb_true_iff in Hd as [Hc _].
  apply is_digit_range in Hc.
  replace (c =? 43) with false by (symmetry; apply Z.eqb_neq; lia).
  replace (c =? 45) with false by (symmetry; apply Z.eqb_neq; lia).
  destruct HU as [(Hb & Hv & ->) | [Hbad [-> | ->]]].
  - rewrite Hb. cbn [andb negb].
    unfold Int64.max_signed.
    destruct (Z.leb_spec (digits_value base 0 ds) (2 ^ 63 - 1)) as [Hfit | Hbig].
    + replace (digits_value base 0 ds >=? 2 ^ 63) with false
        by (symmetry; rewrite Z.geb_leb; apply Z.leb_gt; lia).
      cbn [andb]. f_equal. apply wrap_id.
      unfold Int64.in_range, Int64.min_signed, Int64.max_signed. lia.
    + replace (digits_value base 0 ds >=? 2 ^ 63) with true
        by (symmetry; apply Z.geb_le; lia).
      cbn [andb]. eauto.
  - replace (digits_below base ds && (digits_value base 0 ds <=? Int64.max_signed))
      with false; [eauto |].
    symmetry. destruct Hbad as [-> | Hbig]; [reflexivity |].
    apply andb_false_iff. right. apply Z.leb_gt.
    unfold maxUint64, Int64.max_signed in *. lia.
  - replace (digits_below base ds && (digits_value base 0 ds <=? Int64.max_signed))
      with false.
    2:{ symmetry. destruct Hbad as [-> | Hbig]; [reflexivity |].
        apply andb_false_iff. right. apply Z.leb_gt.
        unfold maxUint64, Int64.max_signed in *. lia. }
    cbn. eauto.
Qed.

End parse_int.

(** C4, as amended: for an INT token whose lexeme is a non-empty string
    of decimal digits, the parser reads the lexeme the way Go's base 0
    does: in decimal when it does not start with [0], and otherwise the
    digits after the leading [0] in octal.  When every digit is below
    that base and the number fits in a signed 64-bit integer the result
    is the IntegerLiteral of that number and no error is recorded;
    otherwise the parser records the cannot-parse error quoting the
    lexeme (in the source's own wording) and yields no expression. *)
Theorem C4_integer_literal_base0 (p : parser.Parser) :
  let lexeme := token.Literal (parser.curToken p) in
  let base := (leading_zero_reading (strconv.bytes lexeme)).1 in
  let ds := (leading_zero_reading (strconv.bytes lexeme)).2 in
  token.Type_ (parser.curToken p) = token.INT ->
  strconv.bytes lexeme <> [] ->
  forallb strconv.is_digit (strconv.bytes lexeme) = true ->
  parser.parseIntegerLiteral p
  = if digits_below base ds && (digits_value base 0 ds <=? Int64.max_signed)%Z
    then (Some (ast.IntegerLiteral (digits_value base 0 ds)), p)
    else (None, with_integer_error p lexeme).
Proof.
  intros lexeme base ds _ Hne Hd.
  pose proof (ParseInt_digits lexeme Hne Hd) as H. cbv zeta in H. fold base ds in H.
  unfold parser.parseIntegerLiteral. fold lexeme.
  destruct (digits_below base ds && (digits_value base 0 ds <=? Int64.max_signed)%Z).
  - rewrite H. reflexivity.
  - destruct H as (v & e & ->). reflexivity.
Qed.

Lemma C4_integer_literal_base0_witness :
  parser.parseIntegerLiteral (parser_at "9223372036854775807")
  = (Some (ast.IntegerLiteral 9223372036854775807), parser_at "9223372036854775807") /\
  parser.parseIntegerLiteral (parser_at "9223372036854775808")
  = (None, with_integer_error (parser_at "9223372036854775808") "9223372036854775808") /\
  parser.parseIntegerLiteral (parser_at "0777")
  = (Some (ast.IntegerLiteral 511), parser_at "0777").
Proof.
  split; [| split].
  - apply (C4_integer_literal_base0 (parser_at "9223372036854775807"));
      [reflexivity | discriminate | reflexivity].
  - apply (C4_integer_literal_base0 (parser_at "9223372036854775808"));
      [reflexivity | discriminate | reflexivity].
  - apply (C4_integer_literal_base0 (parser_at "0777"));
      [reflexivity | discriminate | reflexivity].
Defined.

(** C4 as stated fails on lexemes with a leading zero: [010] denotes 10
    in decimal but is parsed to the IntegerLiteral 8, and [08] denotes
    8, which fits in 64 bits, but is rejected with an error. *)
Lemma C4_leading_zero_counterexample :
  parser.parseIntegerLiteral (parser_at "010")
  = (Some (ast.IntegerLiteral 8), parser_at "010") /\
  digits_value 10 0 (strconv.bytes "010") = 10%Z /\
  parser.parseIntegerLiteral (parser_at "08")
  = (None, with_integer_error (parser_at "08") "08") /\
  digits_value 10 0 (strconv.bytes "08") = 8%Z.
Proof. repeat split; vm_compute; reflexivity. Qed.


(** * Further properties of the evaluator *)

(** ** Truthiness *)

(** The prefix operator [!] is the negation of truthiness, for every
    value (nil included), so [!!x] is the truthiness of [x] as a
    Boolean. *)
Theorem bang_negates_truthiness (o : Object) :
  evalBongOperatorExpression o = nativeBoolToBooleanObject (negb (isTruthy o)) /\
  evalBongOperatorExpression (evalBongOperatorExpression o)
  = nativeBoolToBooleanObject (isTruthy o).
Proof. destruct o as [| | [] | | | | | | | |]; split; reflexivity. Qed.

(** ** Propagation of errors *)


(** When the first operand of a node evaluates to an Error, the node
    evaluates to that same Error and nothing else is evaluated: the
    state is the one the operand left.  This holds for prefix and infix
    expressions, index expressions, conditions of [if], callees, and
    for let, return and expression statements (a let then binds
    nothing, a return does not wrap). *)
Theorem error_operand_short_circuits
        (map_range : list (ast.Expression * ast.Expression) ->
                     list (ast.Expression * ast.Expression))
        (fuel : nat) (e : ast.Expression) (env : nat) (s s1 : State) (m : string) :
  Eval map_range fuel (ast.Expr e) env s = Ok (Error m, s1) ->
  let stops node := Eval map_range (S fuel) node env s = Ok (Error m, s1) in
  (forall op, stops (ast.Expr (ast.PrefixExpression op e))) /\
  (forall op right, stops (ast.Expr (ast.InfixExpression e op right))) /\
  (forall index, stops (ast.Expr (ast.IndexExpression e index))) /\
  (forall consequence alternative,
      stops (ast.Expr (ast.IfExpression e consequence alternative))) /\
  (forall arguments, stops (ast.Expr (ast.CallExpression e arguments))) /\
  (forall name, stops (ast.Stmt (ast.LetStatement name e))) /\
  stops (ast.Stmt (ast.ReturnStatement e)) /\
  stops (ast.Stmt (ast.ExpressionStatement e)).
Proof.
  intros H stops. subst stops.
  repeat split; intros; cbn [Eval Eval_body]; unfold evalIfExpression, mbind, M_bind;
    try rewrite H; reflexivity.
Qed.

Lemma error_operand_short_circuits_witness :
  Eval id 3 (ast.Expr (ast.InfixExpression (ast.Identifier "y") "+"
                                           (ast.Identifier "z")))
       0%nat initial_state
  = Ok (Error "变量未定义: y", initial_state).
Proof.
  exact (proj1 (proj2 (error_operand_short_circuits
                         id 2 (ast.Identifier "y") 0%nat initial_state initial_state
                         "变量未定义: y" eq_refl))
               "+" (ast.Identifier "z")).
Defined.

(** When the left operand of an infix or index expression evaluates to
    a value that is no Error and the right operand to an Error, the
    expression evaluates to the right operand's Error. *)
Theorem error_in_second_operand
        (map_range : list (ast.Expression * ast.Expression) ->
                     list (ast.Expression * ast.Expression))
        (fuel : nat) (left right : ast.Expression) (env : nat)
        (s s1 s2 : State) (lv : Object) (m : string) :
  Eval map_range fuel (ast.Expr left) env s = Ok (lv, s1) ->
  isError lv = false ->
  Eval map_range fuel (ast.Expr right) env s1 = Ok (Error m, s2) ->
  (forall op, Eval map_range (S fuel) (ast.Expr (ast.InfixExpression left op right)) env s
              = Ok (Error m, s2)) /\
  Eval map_range (S fuel) (ast.Expr (ast.IndexExpression left right)) env s
  = Ok (Error m, s2).
Proof.
  intros Hl Hlv Hr.
  split; intros; cbn [Eval Eval_body]; unfold mbind, M_bind;
    rewrite Hl, Hlv, Hr; reflexivity.
Qed.

Lemma error_in_second_operand_witness :
  Eval id 3 (ast.Expr (ast.InfixExpression (ast.IntegerLiteral 1) "+"
                                           (ast.Identifier "z")))
       0%nat initial_state
  = Ok (Error "变量未定义: z", initial_state).
Proof.
  exact (proj1 (error_in_second_operand
                  id 2 (ast.IntegerLiteral 1) (ast.Identifier "z") 0%nat
                  initial_state initial_state initial_state (Integer 1)
                  "变量未定义: z" eq_refl eq_refl eq_refl) "+").
Defined.

(** ** Lists of expressions *)

Section expressions.

Variable ev : ast.Node -> nat -> M Object.


End expressions.



(** ** Statement sequences *)

Section block_loop.

Variable ev : ast.Node -> nat -> M Object.
Variable env : nat.

Lemma evalBlockStatement_loop_passes pre :
  forall post r0 s s1,
    passes ev env pre s s1 ->
    exists r1, evalBlockStatement_loop ev r0 (pre ++ post) env s
               = evalBlockStatement_loop ev r1 post env s1.
Proof.
  induction pre as [| stmt pre IH]; intros post r0 s s1 Hp.
  - inversion Hp; subst. exists r0. reflexivity.
  - inversion Hp as [| ? ? ? r sm ? Hev Hend Hrest]; subst.
    destruct (IH post r sm s1 Hrest) as [r1 Hr1].
    exists r1. cbn [app evalBlockStatement_loop]. unfold mbind, M_bind.
    rewrite Hev. rewrite <- Hr1.
    destruct r; cbn in Hend; try discriminate; reflexivity.
Qed.

End block_loop.

(** A program whose statements are executed up to one that evaluates
    to an Error returns that Error, and up to one that evaluates to a
    ReturnValue returns the wrapped value; in both cases the statements
    after it are not executed.  A program all of whose statements are
    executed returns what the last one evaluated to. *)
Theorem program_stops_at_error_or_return
        (map_range : list (ast.Expression * ast.Expression) ->
                     list (ast.Expression * ast.Expression))
        (fuel : nat) (env : nat) (pre : list ast.Statement) (stmt : ast.Statement)
        (s s1 s2 : State) (r : Object) :
  passes (Eval map_range fuel) env pre s s1 ->
  Eval map_range fuel (ast.Stmt stmt) env s1 = Ok (r, s2) ->
  (forall m post, r = Error m ->
     Eval map_range (S fuel) (ast.Program (pre ++ stmt :: post)) env s = Ok (Error m, s2)) /\
  (forall a v post, r = ReturnValue a v ->
     Eval map_range (S fuel) (ast.Program (pre ++ stmt :: post)) env s = Ok (v, s2)) /\
  (ends_program r = false ->
     Eval map_range (S fuel) (ast.Program (pre ++ [stmt])) env s = Ok (r, s2)).
Proof.
  intros Hpre Hstmt.
  assert (Hstep : forall post,
             Eval map_range (S fuel) (ast.Program (pre ++ stmt :: post)) env s
             = match r with
               | ReturnValue _ v => Ok (v, s2)
               | Error _ => Ok (r, s2)
               | _ => evalProgram_loop (Eval map_range fuel) r post env s2
               end).
  { intros post.
    change (Eval map_range (S fuel) (ast.Program (pre ++ stmt :: post)) env s)
      with (evalProgram_loop (Eval map_range fuel) Nil (pre ++ stmt :: post) env s).
    destruct (evalProgram_loop_passes _ _ pre (stmt :: post) Nil s s1 Hpre) as [r1 ->].
    cbn [evalProgram_loop]. unfold mbind, M_bind. rewrite Hstmt.
    destruct r; reflexivity. }
  split; [| split].
  - intros m post ->. apply Hstep.
  - intros a v post ->. apply Hstep.
  - intros Hend. rewrite Hstep. destruct r; try discriminate; reflexivity.
Qed.

Lemma program_stops_at_error_or_return_witness :
  Eval id 4 (ast.Program [ast.ExpressionStatement (ast.IntegerLiteral 1);
                          ast.ReturnStatement (ast.IntegerLiteral 2);
                          ast.ExpressionStatement (ast.IntegerLiteral 3)])
       0%nat initial_state
  = Ok (Integer 2, mkState (envs initial_state) 1 []).
Proof.
  refine (proj1 (proj2 (program_stops_at_error_or_return
                          id 3 0%nat [ast.ExpressionStatement (ast.IntegerLiteral 1)]
                          (ast.ReturnStatement (ast.IntegerLiteral 2))
                          initial_state initial_state
                          (mkState (envs initial_state) 1 [])
                          (ReturnValue 0 (Integer 2)) _ eq_refl))
                0%nat (Integer 2) [ast.ExpressionStatement (ast.IntegerLiteral 3)] eq_refl).
  eapply passes_cons; [reflexivity | reflexivity | apply passes_nil].
Defined.

(** A block whose statements are executed up to one that evaluates to
    a ReturnValue or an Error returns that value as it is (a
    ReturnValue keeps its wrapper) without executing the statements
    after it; a block all of whose statements are executed returns what
    the last one evaluated to, and the empty block returns nil. *)
Theorem block_stops_and_keeps_wrapper
        (map_range : list (ast.Expression * ast.Expression) ->
                     list (ast.Expression * ast.Expression))
        (fuel : nat) (env : nat) (pre : list ast.Statement) (stmt : ast.Statement)
        (s s1 s2 : State) (r : Object) :
  passes (Eval map_range fuel) env pre s s1 ->
  Eval map_range fuel (ast.Stmt stmt) env s1 = Ok (r, s2) ->
  (ends_program r = true -> forall post,
     Eval map_range (S fuel) (ast.Stmt (ast.BlockStatement (pre ++ stmt :: post))) env s
     = Ok (r, s2)) /\
  Eval map_range (S fuel) (ast.Stmt (ast.BlockStatement (pre ++ [stmt]))) env s
  = Ok (r, s2) /\
  Eval map_range (S fuel) (ast.Stmt (ast.BlockStatement [])) env s = Ok (Nil, s).
Proof.
  intros Hpre Hstmt.
  assert (Hstep : forall post,
             Eval map_range (S fuel) (ast.Stmt (ast.BlockStatement (pre ++ stmt :: post))) env s
             = if ends_program r then Ok (r, s2)
               else evalBlockStatement_loop (Eval map_range fuel) r post env s2).
  { intros post.
    change (Eval map_range (S fuel) (ast.Stmt (ast.BlockStatement (pre ++ stmt :: post))) env s)
      with (evalBlockStatement_loop (Eval map_range fuel) Nil (pre ++ stmt :: post) env s).
    destruct (evalBlockStatement_loop_passes _ _ pre (stmt :: post) Nil s s1 Hpre)
      as [r1 ->].
    cbn [evalBlockStatement_loop]. unfold mbind, M_bind. rewrite Hstmt.
    destruct r; reflexivity. }
  split; [| split].
  - intros Hend post. rewrite Hstep, Hend. reflexivity.
  - rewrite Hstep. destruct (ends_program r); reflexivity.
  - reflexivity.
Qed.

Lemma block_stops_and_keeps_wrapper_witness :
  Eval id 4 (ast.Stmt (ast.BlockStatement
                         [ast.ExpressionStatement (ast.IntegerLiteral 1);
                          ast.ReturnStatement (ast.IntegerLiteral 2);
                          ast.ExpressionStatement (ast.IntegerLiteral 3)]))
       0%nat initial_state
  = Ok (ReturnValue 0 (Integer 2), mkState (envs initial_state) 1 []).
Proof.
  refine (proj1 (block_stops_and_keeps_wrapper
                   id 3 0%nat [ast.ExpressionStatement (ast.IntegerLiteral 1)]
                   (ast.ReturnStatement (ast.IntegerLiteral 2))
                   initial_state initial_state
                   (mkState (envs initial_state) 1 [])
                   (ReturnValue 0 (Integer 2)) _ eq_refl)
                eq_refl [ast.ExpressionStatement (ast.IntegerLiteral 3)]).
  eapply passes_cons; [reflexivity | reflexivity | apply passes_nil].
Defined.

(** ** Infix and prefix operators *)

Ltac case_operator op :=
  repeat match goal with
         | |- context [String.eqb op ?k] => destruct (String.eqb_spec op k)
         end.

(** On two operands that are not nil, an infix operator always returns
    a value and leaves the state alone, with one exception: the
    division of an Integer by the Integer 0, which panics.  A nil left
    operand makes every operator panic. *)
Theorem infix_returns_on_values (op : string) (left right : Object) (s : State) :
  (left <> Nil -> right <> Nil ->
   ~ (op = "/" /\ (exists a, left = Integer a) /\ right = Integer 0) ->
   exists r, evalInfixExpression op left right s = Ok (r, s)) /\
  (forall a, evalInfixExpression "/" (Integer a) (Integer 0) s = Panic divide_by_zero) /\
  evalInfixExpression op Nil right s = Panic nil_dereference.
Proof.
  split; [| split; reflexivity].
  intros Hl Hr Hdiv.
  destruct left; try contradiction; destruct right; try contradiction;
    unfold evalInfixExpression, both_have_type, evalIntegerInfixExpression,
      evalStringInfixExpression;
    unfold_m; cbn;
    case_operator op; cbn; eauto.
  match goal with
  | |- context [Z.eqb ?b 0] => destruct (Z.eqb_spec b 0) as [-> | Hne]; [| eauto]
  end.
  exfalso. apply Hdiv. subst op. eauto.
Qed.

Lemma infix_returns_on_values_witness :
  exists r, evalInfixExpression "/" (Integer 7) (Array 0 []) initial_state
            = Ok (r, initial_state).
Proof.
  apply (proj1 (infix_returns_on_values "/" (Integer 7) (Array 0 []) initial_state));
    [discriminate | discriminate |].
  intros (_ & _ & H). discriminate.
Defined.

(** For operands of two different types and an operator other than
    [==] and [!=], the result is the type-mismatch Error naming the
    left type, the operator and the right type; for operands of one
    type that is neither INTEGER nor STRING it is the unknown-operator
    Error.  (Message texts are the source's.) *)
Theorem infix_type_errors (op : string) (left right : Object) (lt rt : string)
        (s : State) :
  Type_ left = Some lt -> Type_ right = Some rt ->
  op <> "==" -> op <> "!=" ->
  (lt <> rt ->
   evalInfixExpression op left right s
   = Ok (Error ("类型不匹配: " +:+ lt +:+ " " +:+ op +:+ " " +:+ rt), s)) /\
  (lt = rt -> lt <> INTEGER_OBJ -> lt <> STRING_OBJ ->
   evalInfixExpression op left right s
   = Ok (Error ("未知的操作: " +:+ lt +:+ " " +:+ op +:+ " " +:+ rt), s)).
Proof.
  intros Hl Hr Heq Hne.
  assert (Hstep : (lt <> INTEGER_OBJ \/ rt <> INTEGER_OBJ) ->
                  (lt <> STRING_OBJ \/ rt <> STRING_OBJ) ->
                  evalInfixExpression op left right s
                  = if negb (String.eqb lt rt)
                    then Ok (Error ("类型不匹配: " +:+ lt +:+ " " +:+ op +:+ " " +:+ rt), s)
                    else Ok (Error ("未知的操作: " +:+ lt +:+ " " +:+ op +:+ " " +:+ rt), s)).
  { intros Hi Hs.
    unfold evalInfixExpression, both_have_type, TypeOf. rewrite Hl, Hr.
    unfold mbind, M_bind, mret, M_ret.
    destruct (String.eqb_spec lt INTEGER_OBJ) as [E1 | N1];
      destruct (String.eqb_spec rt INTEGER_OBJ) as [E2 | N2];
      try (destruct Hi; contradiction);
      destruct (String.eqb_spec lt STRING_OBJ) as [E3 | N3];
      destruct (String.eqb_spec rt STRING_OBJ) as [E4 | N4];
      try (destruct Hs; contradiction);
      destruct (String.eqb_spec op "=="); try contradiction;
      destruct (String.eqb_spec op "!="); try contradiction;
      destruct (negb (String.eqb lt rt)); reflexivity. }
  split.
  - intros Hdiff. rewrite Hstep.
    + destruct (String.eqb_spec lt rt); [contradiction | reflexivity].
    + destruct (String.eqb_spec lt INTEGER_OBJ); [| by left]. right. congruence.
    + destruct (String.eqb_spec lt STRING_OBJ); [| by left]. right. congruence.
  - intros -> Hi Hs. rewrite Hstep; [| by left | by left].
    rewrite String.eqb_refl. reflexivity.
Qed.

Lemma infix_type_errors_witness :
  evalInfixExpression "+" (Integer 5) (Boolean true) initial_state
  = Ok (Error "类型不匹配: INTEGER + BOOLEAN", initial_state).
Proof.
  apply (proj1 (infix_type_errors "+" (Integer 5) (Boolean true)
                                  INTEGER_OBJ BOOLEAN_OBJ initial_state
                                  eq_refl eq_refl ltac:(discriminate) ltac:(discriminate))).
  discriminate.
Defined.

(** Whenever [==] on two operands returns a Boolean, [!=] on the same
    operands returns the opposite Boolean. *)
Theorem not_equal_negates_equal (left right : Object) (s s' : State) (b : bool) :
  evalInfixExpression "==" left right s = Ok (Boolean b, s') ->
  evalInfixExpression "!=" left right s = Ok (Boolean (negb b), s').
Proof.
  destruct left, right;
    unfold evalInfixExpression, both_have_type, evalIntegerInfixExpression,
      evalStringInfixExpression;
    unfold_m; cbn; unfold nativeBoolToBooleanObject;
    repeat match goal with
           | |- context [negb ?c] => destruct c; cbn [negb]
           | |- context [if ?c then TRUE else FALSE] => destruct c
           end;
    intros H; unfold TRUE, FALSE, newError in *; congruence.
Qed.

Lemma not_equal_negates_equal_witness :
  evalInfixExpression "!=" (Integer 1) (Integer 2) initial_state
  = Ok (Boolean true, initial_state).
Proof.
  exact (not_equal_negates_equal (Integer 1) (Integer 2) initial_state initial_state
                                 false eq_refl).
Defined.

(** ** Division and negation *)

Lemma quot_in_range a b :
  Int64.in_range a -> Int64.in_range b -> b <> 0%Z ->
  (a <> Int64.min_signed \/ b <> (-1)%Z) ->
  Int64.in_range (Z.quot a b).
Proof.
  unfold Int64.in_range, Int64.min_signed, Int64.max_signed.
  intros Ha Hb Hb0 Hnot.
  pose proof (Z.quot_rem' a b) as Hqr.
  pose proof (Z.rem_bound_abs a b Hb0) as Hrem.
  pose proof (Z.rem_sign_mul a b Hb0) as Hsign.
  destruct (Z.eq_dec b 1) as [-> | Hb1].
  { rewrite Z.quot_1_r. lia. }
  destruct (Z.eq_dec b (-1)) as [-> | Hbm1].
  { replace (Z.quot a (-1)) with (- a)%Z; [lia |].
    change (-1)%Z with (Z.opp 1). rewrite Z.quot_opp_r by lia.
    rewrite Z.quot_1_r. reflexivity. }
  nia.
Qed.

(** Integer division: a zero divisor panics; otherwise the result is
    the quotient truncated toward zero, except for the one quotient
    that does not fit, the least 64-bit integer divided by -1, which
    gives the least 64-bit integer again. *)
Theorem integer_division (a b : Z) (s : State) :
  Int64.in_range a -> Int64.in_range b ->
  (b = 0%Z -> evalInfixExpression "/" (Integer a) (Integer b) s = Panic divide_by_zero) /\
  (b <> 0%Z ->
   exists q, evalInfixExpression "/" (Integer a) (Integer b) s = Ok (Integer q, s) /\
             ((a <> Int64.min_signed \/ b <> (-1)%Z) -> q = Z.quot a b) /\
             (a = Int64.min_signed -> b = (-1)%Z -> q = Int64.min_signed)).
Proof.
  intros Ha Hb. split.
  - intros ->. reflexivity.
  - intros Hb0. exists (Int64.quot a b). split; [| split].
    + unfold evalInfixExpression, both_have_type, evalIntegerInfixExpression.
      unfold_m. cbn.
      destruct (Z.eqb_spec b 0); [contradiction | reflexivity].
    + intros Hnot. apply wrap_id. by apply quot_in_range.
    + intros -> ->. reflexivity.
Qed.

Lemma integer_division_witness :
  evalInfixExpression "/" (Integer (-7)) (Integer 2) initial_state
  = Ok (Integer (-3), initial_state).
Proof.
  assert (H7 : Int64.in_range (-7)) by (vm_compute; split; discriminate).
  assert (H2 : Int64.in_range 2) by (vm_compute; split; discriminate).
  destruct (proj2 (integer_division (-7) 2 initial_state H7 H2) ltac:(discriminate))
    as (q & Hev & Hq & _).
  rewrite Hev, Hq; [reflexivity | right; discriminate].
Defined.

(** Prefix [-] applied twice to a 64-bit Integer gives the Integer
    back (the least one is its own negation); applied to a value of
    another type it gives the unknown-operator Error naming that type,
    and applied to nil it panics. *)
Theorem prefix_minus (s : State) :
  (forall a, Int64.in_range a ->
     exists r, evalPrefixExpression "-" (Integer a) s = Ok (Integer r, s) /\
               evalPrefixExpression "-" (Integer r) s = Ok (Integer a, s)) /\
  (forall right t, Type_ right = Some t -> t <> INTEGER_OBJ ->
     evalPrefixExpression "-" right s = Ok (Error ("未知的操作: -" +:+ t), s)) /\
  evalPrefixExpression "-" Nil s = Panic nil_dereference.
Proof.
  split; [| split; [| reflexivity]].
  - intros a Ha. exists (Int64.neg a). split; [reflexivity |].
    change (evalPrefixExpression "-" (Integer (Int64.neg a)) s)
      with (@Ok (Object * State) (Integer (Int64.neg (Int64.neg a)), s)).
    do 3 f_equal.
    unfold Int64.neg, Int64.wrap, Int64.modulus.
    unfold Int64.in_range, Int64.min_signed, Int64.max_signed in Ha.
    destruct (Z.eq_dec a (- 2 ^ 63)) as [-> | Hne]; [reflexivity |].
    rewrite (Z.mod_small (- a + 2 ^ 63)) by lia.
    rewrite Z.mod_small by lia. lia.
  - intros right t Ht Hne.
    destruct right; cbn in Ht; try discriminate; injection Ht as <-;
      try contradiction; reflexivity.
Qed.

Lemma prefix_minus_witness :
  exists r, evalPrefixExpression "-" (Integer 5) initial_state = Ok (Integer r, initial_state) /\
            evalPrefixExpression "-" (Integer r) initial_state
            = Ok (Integer 5, initial_state).
Proof.
  apply (proj1 (prefix_minus initial_state) 5). vm_compute. split; discriminate.
Defined.

(** ** Builtins on arrays and strings *)

Lemma call_len args : call_builtin "len" args = builtin_len args.
Proof. reflexivity. Qed.
Lemma call_first args : call_builtin "first" args = builtin_first args.
Proof. reflexivity. Qed.
Lemma call_last args : call_builtin "last" args = builtin_last args.
Proof. reflexivity. Qed.
Lemma call_rest args : call_builtin "rest" args = builtin_rest args.
Proof. reflexivity. Qed.
Lemma call_push args : call_builtin "push" args = builtin_push args.
Proof. reflexivity. Qed.
Lemma call_puts args : call_builtin "puts" args = builtin_puts args.
Proof. reflexivity. Qed.

(** Called with arguments none of which is nil, the builtins [len],
    [first], [last], [rest] and [push] always return (a value or an
    Error, never a panic), write to no environment and print
    nothing. *)
Theorem builtins_return_and_keep_environments
        (name : string) (args : list Object) (s : State) :
  In name ["len"; "first"; "last"; "rest"; "push"] ->
  Forall (fun a => a <> Nil) args ->
  exists r s', call_builtin name args s = Ok (r, s') /\
               envs s' = envs s /\ stdout s' = stdout s.
Proof.
  intros Hin Hall.
  assert (Hhead : forall a rest, args = a :: rest -> a <> Nil).
  { intros a rest ->. by inversion Hall. }
  assert (Hok : forall (r : Object), exists r' s', @Ok (Object * State) (r, s) = Ok (r', s')
                                            /\ envs s' = envs s /\ stdout s' = stdout s)
    by (intros r; by eexists _, _).
  cbn in Hin.
  destruct Hin as [<- | [<- | [<- | [<- | [<- | []]]]]].
  - rewrite call_len.
    destruct args as [| a [| b rest]]; [apply Hok | | apply Hok].
    specialize (Hhead a _ eq_refl). destruct a; try contradiction; apply Hok.
  - rewrite call_first.
    destruct args as [| a [| b rest]]; [apply Hok | | apply Hok].
    specialize (Hhead a _ eq_refl). destruct a; try contradiction; try apply Hok.
    destruct Elements; apply Hok.
  - rewrite call_last.
    destruct args as [| a [| b rest]]; [apply Hok | | apply Hok].
    specialize (Hhead a _ eq_refl). destruct a; try contradiction; try apply Hok.
    unfold builtin_last. unfold_m. cbn -[last]. destruct (last Elements); apply Hok.
  - rewrite call_rest.
    destruct args as [| a [| b rest]]; [apply Hok | | apply Hok].
    specialize (Hhead a _ eq_refl). destruct a; try contradiction; try apply Hok.
    destruct Elements; [apply Hok | by eexists _, _].
  - rewrite call_push.
    destruct args as [| a [| b [| c rest]]]; [apply Hok | apply Hok | | apply Hok].
    specialize (Hhead a _ eq_refl). destruct a; try contradiction; try apply Hok.
    by eexists _, _.
Qed.

Lemma builtins_return_and_keep_environments_witness :
  exists r s', call_builtin "rest" [Array 0 [Integer 1; Integer 2]] initial_state
               = Ok (r, s') /\
               envs s' = envs initial_state /\ stdout s' = stdout initial_state.
Proof.
  apply builtins_return_and_keep_environments.
  - cbn. tauto.
  - repeat constructor. discriminate.
Defined.

(** [push] returns a new array, the old elements followed by the new
    one: its last element is the pushed value and its length is the
    old length plus one. *)
Theorem push_appends (a : nat) (els : list Object) (x : Object) (s : State) :
  let s' := mkState (envs s) (S (next_addr s)) (stdout s) in
  let pushed := Array (next_addr s) (els ++ [x]) in
  call_builtin "push" [Array a els; x] s = Ok (pushed, s') /\
  call_builtin "last" [pushed] s' = Ok (x, s') /\
  call_builtin "len" [pushed] s' = Ok (Integer (Z.of_nat (length els) + 1), s') /\
  (forall e els', els = e :: els' -> call_builtin "first" [pushed] s' = Ok (e, s')).
Proof.
  intros s' pushed. subst pushed. split; [reflexivity |]. split; [| split].
  - rewrite call_last. cbn. rewrite last_snoc. reflexivity.
  - rewrite call_len. cbn [builtin_len mret M_ret].
    rewrite length_app, Nat2Z.inj_add. reflexivity.
  - intros e els' ->. reflexivity.
Qed.

(** [first] and [rest] take a non-empty array apart into its first
    element and a new array of the elements after it, one element
    shorter; on the empty array [first], [last] and [rest] all return
    NULL. *)
Theorem first_and_rest (a : nat) (e : Object) (els : list Object) (s : State) :
  let s' := mkState (envs s) (S (next_addr s)) (stdout s) in
  call_builtin "first" [Array a (e :: els)] s = Ok (e, s) /\
  call_builtin "rest" [Array a (e :: els)] s = Ok (Array (next_addr s) els, s') /\
  call_builtin "len" [Array (next_addr s) els] s'
  = Ok (Integer (Z.of_nat (length (e :: els)) - 1), s') /\
  call_builtin "first" [Array a []] s = Ok (NULL, s) /\
  call_builtin "last" [Array a []] s = Ok (NULL, s) /\
  call_builtin "rest" [Array a []] s = Ok (NULL, s).
Proof.
  intros s'. repeat split; try reflexivity.
  rewrite call_len. cbn [builtin_len mret M_ret].
  replace (Z.of_nat (length (e :: els)) - 1)%Z with (Z.of_nat (length els))
    by (cbn [length]; lia).
  reflexivity.
Qed.

Lemma string_length_append (a b : string) :
  String.length (a +:+ b) = (String.length a + String.length b)%nat.
Proof.
  induction a as [| c a IH]; [reflexivity |].
  change (S (String.length (a +:+ b)) = S (String.length a + String.length b)).
  by rewrite IH.
Qed.

(** The length [len] gives for the concatenation of two Strings is the
    sum of their lengths (in bytes). *)
Theorem len_of_concatenation (a b : string) (s : State) :
  exists ab,
    evalInfixExpression "+" (String a) (String b) s = Ok (ab, s) /\
    call_builtin "len" [ab] s
    = Ok (Integer (Z.of_nat (String.length a) + Z.of_nat (String.length b)), s).
Proof.
  exists (String (a +:+ b)). split; [reflexivity |].
  rewrite call_len. cbn [builtin_len mret M_ret].
  rewrite string_length_append, Nat2Z.inj_add. reflexivity.
Qed.

(** A wrong number of arguments makes [len], [first], [last] and
    [rest] (which take one) and [push] (which takes two) return the
    arity Error that reports the number received; the arguments are not
    looked at. *)
Theorem builtin_arity_errors (args : list Object) (s : State) :
  (length args <> 1%nat ->
   forall name, In name ["len"; "first"; "last"; "rest"] ->
     call_builtin name args s
     = Ok (Error ("入参数量不正确，需要1个，实际" +:+ pretty (length args) +:+ "个"), s)) /\
  (length args <> 2%nat ->
   call_builtin "push" args s
   = Ok (Error ("入参数量不正确，需要2个，实际" +:+ pretty (length args) +:+ "个"), s)).
Proof.
  split.
  - intros Hlen name Hin. cbn in Hin.
    destruct Hin as [<- | [<- | [<- | [<- | []]]]];
      [rewrite call_len | rewrite call_first | rewrite call_last | rewrite call_rest];
      destruct args as [| a [| b rest]]; try reflexivity; cbn in Hlen; lia.
  - intros Hlen. rewrite call_push.
    destruct args as [| a [| b [| c rest]]]; try reflexivity. cbn in Hlen. lia.
Qed.

Lemma builtin_arity_errors_witness :
  call_builtin "len" [Integer 1; Integer 2] initial_state
  = Ok (Error "入参数量不正确，需要1个，实际2个", initial_state).
Proof.
  apply (proj1 (builtin_arity_errors [Integer 1; Integer 2] initial_state));
    [discriminate | cbn; tauto].
Defined.

(** [puts] returns NULL and prints its arguments in order when each of
    them can be inspected; it writes to no environment. *)
Theorem puts_prints_in_order (args : list Object) (s : State) :
  forallb Inspect_returns args = true ->
  call_builtin "puts" args s
  = Ok (NULL, mkState (envs s) (next_addr s) (stdout s ++ args)).
Proof.
  rewrite call_puts. revert s.
  induction args as [| a args IH]; intros s H.
  - cbn. rewrite app_nil_r. by destruct s.
  - cbn in H. apply andb_true_iff in H as [Ha Hargs].
    cbn [builtin_puts]. unfold mbind, M_bind, Println_Inspect. rewrite Ha.
    rewrite IH by exact Hargs. cbn [envs next_addr stdout].
    rewrite <- app_assoc. reflexivity.
Qed.

Lemma puts_prints_in_order_witness :
  call_builtin "puts" [Integer 1; String "a"] initial_state
  = Ok (NULL, mkState (envs initial_state) 0 [Integer 1; String "a"]).
Proof. exact (puts_prints_in_order [Integer 1; String "a"] initial_state eq_refl). Defined.

(** ** Hash keys and hash indexing *)

Lemma fnv1a_write_range (str : string) :
  forall h, (0 <= h < 2 ^ 64)%Z -> (0 <= fnv1a_write h str < 2 ^ 64)%Z.
Proof.
  induction str as [| c str IH]; intros h Hh; [exact Hh |].
  cbn [fnv1a_write]. apply IH. apply Z.mod_pos_bound. lia.
Qed.

(** A hash key carries the type of the value it was made from and a
    64-bit unsigned number, so the keys of two values of different
    types are never equal; exactly the values of type INTEGER, BOOLEAN
    and STRING have a hash key. *)
Theorem hash_key_carries_type (v : Object) :
  (forall k, HashKey_of v = Some k ->
             Type_ v = Some (hk_Type k) /\ (0 <= hk_Value k < 2 ^ 64)%Z) /\
  (forall w kv kw, HashKey_of v = Some kv -> HashKey_of w = Some kw ->
                   Type_ v <> Type_ w -> kv <> kw) /\
  (is_Some (HashKey_of v) <->
   Type_ v = Some INTEGER_OBJ \/ Type_ v = Some BOOLEAN_OBJ \/ Type_ v = Some STRING_OBJ).
Proof.
  assert (Htag : forall u k, HashKey_of u = Some k -> Type_ u = Some (hk_Type k)).
  { intros u k H. destruct u; cbn in H; try discriminate; by injection H as <-. }
  split; [| split].
  - intros k H. split; [by apply Htag |].
    destruct v; cbn in H; try discriminate; injection H as <-; cbn.
    + apply Z.mod_pos_bound. reflexivity.
    + destruct Value0; lia.
    + apply fnv1a_write_range. unfold fnv_offset64. lia.
  - intros w kv kw Hv Hw Hne ->.
    apply Htag in Hv, Hw. congruence.
  - split.
    + intros [k H]. destruct v; cbn in H; try discriminate; cbn; tauto.
    + intros [H | [H | H]]; destruct v; cbn in H; try discriminate; cbn; eauto.
Qed.

(** Indexing something that is neither an Array nor a Hash, or an
    Array by something that is no Integer, gives the
    index-not-supported Error naming the type of the left operand;
    indexing a Hash by a value without hash key gives the
    unusable-key Error naming the type of the index, and by a key the
    Hash has no entry for gives NULL. *)
Theorem index_errors (left index : Object) (lt : string) (s : State) :
  Type_ left = Some lt ->
  (lt <> ARRAY_OBJ -> lt <> HASH_OBJ ->
   evalIndexExpression left index s = Ok (Error ("不支持访问索引, " +:+ lt), s)) /\
  (forall it, lt = ARRAY_OBJ -> Type_ index = Some it -> it <> INTEGER_OBJ ->
   evalIndexExpression left index s = Ok (Error ("不支持访问索引, " +:+ lt), s)) /\
  (forall it, lt = HASH_OBJ -> HashKey_of index = None -> Type_ index = Some it ->
   evalIndexExpression left index s = Ok (Error ("无法作为哈希的键, " +:+ it), s)) /\
  (forall a pairs k, left = Hash a pairs -> HashKey_of index = Some k ->
   pairs !! k = None ->
   evalIndexExpression left index s = Ok (NULL, s)).
Proof.
  intros Hl. unfold evalIndexExpression, TypeOf. rewrite Hl.
  unfold mbind, M_bind, mret, M_ret. repeat split.
  - intros Ha Hh.
    destruct (String.eqb_spec lt ARRAY_OBJ); [contradiction |].
    destruct (String.eqb_spec lt HASH_OBJ); [contradiction | reflexivity].
  - intros it -> Hi Hne. rewrite Hi. cbn.
    destruct (String.eqb_spec it INTEGER_OBJ); [contradiction | reflexivity].
  - intros it -> Hk Hi. destruct left; cbn in Hl; try discriminate.
    cbn. rewrite Hk. unfold TypeOf. rewrite Hi. reflexivity.
  - intros a pairs k -> Hk Hnone. cbn in Hl. injection Hl as <-.
    cbn. rewrite Hk, Hnone. reflexivity.
Qed.

Lemma index_errors_witness :
  evalIndexExpression (Array 0 [Integer 1]) (String "a") initial_state
  = Ok (Error "不支持访问索引, ARRAY", initial_state).
Proof.
  apply (proj1 (proj2 (index_errors (Array 0 [Integer 1]) (String "a") ARRAY_OBJ
                                    initial_state eq_refl))
               STRING_OBJ eq_refl eq_refl).
  discriminate.
Defined.

(** When the key of the pair of a hash literal that is visited first
    evaluates to a value without hash key, the literal evaluates to the
    unusable-key Error naming the key's type, and the value expression
    of that pair is not evaluated. *)
Theorem unhashable_key_error
        (map_range : list (ast.Expression * ast.Expression) ->
                     list (ast.Expression * ast.Expression))
        (fuel : nat) (Pairs rest : list (ast.Expression * ast.Expression))
        (keyNode valueNode : ast.Expression) (env : nat) (s s1 : State)
        (key : Object) (t : string) :
  map_range Pairs = (keyNode, valueNode) :: rest ->
  Eval map_range fuel (ast.Expr keyNode) env s = Ok (key, s1) ->
  HashKey_of key = None ->
  Type_ key = Some t -> t <> ERROR_OBJ ->
  Eval map_range (S fuel) (ast.Expr (ast.HashLiteral Pairs)) env s
  = Ok (Error ("无法作为哈希的键, " +:+ t), s1).
Proof.
  intros Hrange Hkey Hnone Ht Hne.
  cbn [Eval Eval_body]. unfold evalHashLiteral. rewrite Hrange.
  cbn [evalHashLiteral_loop]. unfold mbind, M_bind. rewrite Hkey.
  unfold isError, TypeOf. rewrite Ht, Hnone.
  destruct (String.eqb_spec t ERROR_OBJ); [contradiction | reflexivity].
Qed.

Lemma unhashable_key_error_witness :
  Eval id 3 (ast.Expr (ast.HashLiteral [(ast.ArrayLiteral [ast.IntegerLiteral 1],
                                         ast.IntegerLiteral 1)]))
       0%nat initial_state
  = Ok (Error "无法作为哈希的键, ARRAY", mkState (envs initial_state) 1 []).
Proof.
  apply (unhashable_key_error
           id 2 _ [] (ast.ArrayLiteral [ast.IntegerLiteral 1]) (ast.IntegerLiteral 1)
           0%nat initial_state (mkState (envs initial_state) 1 [])
           (Array 0 [Integer 1]) ARRAY_OBJ eq_refl eq_refl eq_refl eq_refl).
  discriminate.
Defined.

(** Indexing a hash literal: when the pairs evaluate (in the order of
    the visit) to the keys and values [kvs] and the index to a value
    with hash key [hk], the result is the value of the pair visited
    last with that hash key, and NULL when no pair has it. *)
Theorem hash_literal_lookup
        (map_range : list (ast.Expression * ast.Expression) ->
                     list (ast.Expression * ast.Expression))
        (fuel : nat) (Pairs : list (ast.Expression * ast.Expression))
        (indexNode : ast.Expression) (env : nat) (s s1 s2 : State)
        (kvs : list (HashKey * HashPair Object)) (index : Object) (hk : HashKey) :
  evaluates_pairs (Eval map_range fuel) env (map_range Pairs) s kvs s1 ->
  Eval map_range (S fuel) (ast.Expr indexNode) env
       (mkState (envs s1) (S (next_addr s1)) (stdout s1)) = Ok (index, s2) ->
  HashKey_of index = Some hk ->
  let result :=
    Eval map_range (S (S fuel))
         (ast.Expr (ast.IndexExpression (ast.HashLiteral Pairs) indexNode)) env s in
  (forall kvs1 p kvs2,
      kvs = (kvs1 ++ (hk, p) :: kvs2)%list -> hk ∉ kvs2.*1 ->
      result = Ok (Value p, s2)) /\
  (hk ∉ kvs.*1 -> result = Ok (NULL, s2)).
Proof.
  intros Hpairs Hindex Hhk result.
  assert (Hstep : result
                  = match insert_all kvs ∅ !! hk with
                    | Some p => Ok (Value p, s2)
                    | None => Ok (NULL, s2)
                    end).
  { subst result.
    change (Eval map_range (S (S fuel))
                 (ast.Expr (ast.IndexExpression (ast.HashLiteral Pairs) indexNode)) env s)
      with ((left ← evalHashLiteral_loop (Eval map_range fuel) ∅ (map_range Pairs) env;
             if isError left then mret left else
             index ← Eval map_range (S fuel) (ast.Expr indexNode) env;
             if isError index then mret index
             else evalIndexExpression left index) s).
    unfold mbind at 1. unfold M_bind at 1.
    rewrite (evalHashLiteral_loop_visits _ _ _ _ _ _ _ Hpairs).
    cbn [isError Type_]. change (String.eqb HASH_OBJ ERROR_OBJ) with false. cbv iota.
    unfold mbind, M_bind. rewrite Hindex.
    assert (Hne : isError index = false).
    { destruct index; cbn in Hhk; try discriminate; reflexivity. }
    rewrite Hne. cbn. rewrite Hhk.
    destruct (insert_all kvs ∅ !! hk); reflexivity. }
  split.
  - intros kvs1 p kvs2 -> Hnot. rewrite Hstep.
    by rewrite insert_all_lookup_last.
  - intros Hnot. rewrite Hstep.
    rewrite insert_all_lookup_other by exact Hnot. by rewrite lookup_empty.
Qed.

Lemma hash_literal_lookup_witness :
  Eval reverse 3 (ast.Expr (ast.IndexExpression duplicate_key_literal (ast.IntegerLiteral 1)))
       0%nat initial_state
  = Ok (Integer 10, mkState (envs initial_state) 1 []).
Proof.
  refine (proj1 (hash_literal_lookup
                   reverse 1
                   [(ast.IntegerLiteral 1, ast.IntegerLiteral 10);
                    (ast.IntegerLiteral 1, ast.IntegerLiteral 20)]
                   (ast.IntegerLiteral 1) 0%nat initial_state initial_state
                   (mkState (envs initial_state) 1 [])
                   [(mkHashKey INTEGER_OBJ 1, mkHashPair (Integer 1) (Integer 20));
                    (mkHashKey INTEGER_OBJ 1, mkHashPair (Integer 1) (Integer 10))]
                   (Integer 1) (mkHashKey INTEGER_OBJ 1) _ eq_refl eq_refl)
                [(mkHashKey INTEGER_OBJ 1, mkHashPair (Integer 1) (Integer 20))]
                (mkHashPair (Integer 1) (Integer 10)) [] eq_refl _).
  - repeat (eapply evaluates_cons; [reflexivity ..|]). apply evaluates_nil.
  - apply not_elem_of_nil.
Defined.

(** ** Conditionals *)

(** An [if] whose condition evaluates to a value that is no Error runs
    the consequence when the value is truthy, and otherwise the
    alternative, or gives NULL when there is none.  Only FALSE and NULL
    are not truthy (the Integer 0, the empty String and nil are). *)
Theorem if_expression_branches
        (map_range : list (ast.Expression * ast.Expression) ->
                     list (ast.Expression * ast.Expression))
        (fuel : nat) (Condition : ast.Expression)
        (Consequence : list ast.Statement) (Alternative : option (list ast.Statement))
        (env : nat) (s s1 : State) (c : Object) :
  Eval map_range fuel (ast.Expr Condition) env s = Ok (c, s1) ->
  isError c = false ->
  Eval map_range (S fuel)
       (ast.Expr (ast.IfExpression Condition Consequence Alternative)) env s
  = (if isTruthy c
     then Eval map_range fuel (ast.Stmt (ast.BlockStatement Consequence)) env s1
     else match Alternative with
          | Some alt => Eval map_range fuel (ast.Stmt (ast.BlockStatement alt)) env s1
          | None => Ok (NULL, s1)
          end) /\
  (isTruthy c = false <-> c = FALSE \/ c = NULL).
Proof.
  intros Hc Herr. split.
  - cbn [Eval Eval_body]. unfold evalIfExpression, mbind, M_bind.
    rewrite Hc, Herr. destruct (isTruthy c); [reflexivity |].
    destruct Alternative; reflexivity.
  - split.
    + destruct c as [| | [] | | | | | | | |]; cbn; try discriminate; auto.
    + intros [-> | ->]; reflexivity.
Qed.

Lemma if_expression_branches_witness :
  Eval id 4 (ast.Expr (ast.IfExpression (ast.IntegerLiteral 0)
                                        [ast.ExpressionStatement (ast.IntegerLiteral 1)]
                                        None))
       0%nat initial_state
  = Ok (Integer 1, initial_state).
Proof.
  exact (proj1 (if_expression_branches
                  id 3 (ast.IntegerLiteral 0)
                  [ast.ExpressionStatement (ast.IntegerLiteral 1)] None
                  0%nat initial_state initial_state (Integer 0) eq_refl eq_refl)).
Defined.

(** ** Calls of functions *)

Lemma bound_cons args q params idx store0 a :
  args !! idx = Some a ->
  bound args (q :: params) idx store0 = bound args params (S idx) (<[q := a]> store0).
Proof. intros Ha. unfold bound. rewrite (drop_S _ _ _ Ha). reflexivity. Qed.

Lemma bound_no_argument args q params idx store0 :
  args !! idx = None -> bound args (q :: params) idx store0 = store0.
Proof.
  intros Ha. unfold bound. rewrite drop_ge; [reflexivity |].
  by apply lookup_ge_None.
Qed.

Lemma bound_lookup_other args params :
  forall idx store0 p, p ∉ params -> bound args params idx store0 !! p = store0 !! p.
Proof.
  induction params as [| q params IH]; intros idx store0 p Hnot; [reflexivity |].
  apply not_elem_of_cons in Hnot as [Hne Hnot].
  destruct (args !! idx) as [a |] eqn:Ha.
  - rewrite (bound_cons _ _ _ _ _ _ Ha), IH by exact Hnot.
    by rewrite lookup_insert_ne.
  - by rewrite bound_no_argument.
Qed.

Lemma bound_lookup args params :
  NoDup params ->
  forall idx store0 i p,
    (idx + length params <= length args)%nat ->
    params !! i = Some p ->
    bound args params idx store0 !! p = args !! (idx + i)%nat.
Proof.
  induction 1 as [| q params Hq Hnd IH]; intros idx store0 i p Hlen Hi; [done |].
  cbn [length] in Hlen.
  destruct (lookup_lt_is_Some_2 args idx ltac:(lia)) as [a Ha].
  rewrite (bound_cons _ _ _ _ _ _ Ha).
  destruct i as [| i]; cbn in Hi.
  - injection Hi as <-. rewrite bound_lookup_other by exact Hq.
    rewrite lookup_insert_eq, Nat.add_0_r. by rewrite Ha.
  - rewrite (IH (S idx) _ i p) by (first [lia | exact Hi]).
    f_equal. lia.
Qed.

(** Applying a Function to at least as many arguments as it has
    parameters evaluates its body in a new environment whose outer is
    the environment the function captured (not the caller's), and
    returns the body's value with one ReturnValue wrapper taken off.
    In the new environment the parameters, when their names differ, are
    bound by position: the i-th parameter to the i-th argument;
    arguments beyond the parameters are ignored. *)
Theorem function_call_binds_and_unwraps
        (ev : ast.Node -> nat -> M Object) (a : nat) (Parameters : list string)
        (Body : list ast.Statement) (fnEnv : nat) (args : list Object) (s : State) :
  (length Parameters <= length args)%nat ->
  let frame := mkEnvironment (bound args Parameters 0 ∅) (Some fnEnv) in
  let s' := mkState (envs s ++ [frame]) (next_addr s) (stdout s) in
  applyFunction ev (Function a Parameters Body fnEnv) args s
  = match ev (ast.Stmt (ast.BlockStatement Body)) (length (envs s)) s' with
    | Ok (r, s2) => Ok (unwrapReturnValue r, s2)
    | Panic reason => Panic reason
    | OutOfFuel => OutOfFuel
    end /\
  (NoDup Parameters ->
   forall i p, Parameters !! i = Some p -> env_store frame !! p = args !! i).
Proof.
  intros Hlen frame s'. split.
  - unfold applyFunction, mbind, M_bind.
    rewrite extendFunctionEnv_enough_arguments by exact Hlen.
    fold frame. fold s'.
    destruct (ev _ _ s') as [[r s2] | |]; reflexivity.
  - intros Hnd i p Hi. cbn [frame env_store].
    by rewrite (bound_lookup args Parameters Hnd 0 ∅ i p) by (first [cbn; lia | exact Hi]).
Qed.

Lemma function_call_binds_and_unwraps_witness :
  applyFunction (Eval id 3)
                (Function 0 ["x"] [ast.ReturnStatement (ast.Identifier "x")] 0)
                [Integer 3; Integer 4] initial_state
  = Ok (Integer 3,
        mkState [mkEnvironment ∅ None; mkEnvironment {[ "x" := Integer 3 ]} (Some 0%nat)]
                1 []).
Proof.
  rewrite (proj1 (function_call_binds_and_unwraps
                    (Eval id 3) 0 ["x"] [ast.ReturnStatement (ast.Identifier "x")] 0
                    [Integer 3; Integer 4] initial_state ltac:(cbn; lia))).
  vm_compute. reflexivity.
Defined.

Lemma applyFunction_missing_arguments_witness :
  applyFunction (Eval id 3) (Function 0 ["x"; "y"] [] 0) [Integer 3] initial_state
  = Panic index_out_of_range.
Proof.
  apply applyFunction_missing_arguments. cbn. lia.
Defined.

(** ** Integer literals, for every lexeme *)

(** Whatever the lexeme of the current token, [parseIntegerLiteral]
    either returns an IntegerLiteral whose value is a signed 64-bit
    integer and leaves the parser as it was, or returns no expression
    and appends exactly one message to the errors, leaving the tokens
    as they were. *)
Theorem parseIntegerLiteral_outcomes (p : parser.Parser) :
  (exists v, parser.parseIntegerLiteral p = (Some (ast.IntegerLiteral v), p) /\
             Int64.in_range v) \/
  (exists p' msg, parser.parseIntegerLiteral p = (None, p') /\
                  parser.errors p' = (parser.errors p ++ [msg])%list /\
                  parser.curToken p' = parser.curToken p /\
                  parser.peekToken p' = parser.peekToken p).
Proof.
  unfold parser.parseIntegerLiteral.
  destruct (strconv.ParseInt (token.Literal (parser.curToken p))) as [v [e |]] eqn:H.
  - right. eexists _, _. repeat split.
  - left. exists v. split; [reflexivity |].
    unfold strconv.ParseInt in H.
    repeat match type of H with
           | context [match ?x with _ => _ end] => destruct x; try discriminate
           end;
      injection H as <-; apply wrap_in_range.
Qed.


(** * Properties of the tokens and the parser *)

Set Warnings "-clear-no-such-hyp".

Section parser_properties.

Import tokens tree parsing printing parse_props.

(** ** Keywords *)

(** [LookupIdent] gives IDENT exactly for the strings that are none of
    the seven keywords, and gives different keywords different token
    types. *)
Theorem LookupIdent_keywords (ident : string) :
  (LookupIdent ident = token.IDENT <-> ident ∉ keyword_spellings) /\
  (forall other, LookupIdent ident = LookupIdent other ->
                 LookupIdent ident <> token.IDENT -> ident = other).
Proof.
  assert (Hcases : forall i,
             (i ∈ keyword_spellings /\ LookupIdent i <> token.IDENT /\
              (forall j, j ∈ keyword_spellings -> LookupIdent i = LookupIdent j -> i = j)) \/
             ((i ∉ keyword_spellings) /\ LookupIdent i = token.IDENT)).
  { intros i. unfold LookupIdent.
    destruct (Keywords !! i) as [t |] eqn:E.
    - left. apply elem_of_list_to_map_2 in E.
      repeat (apply elem_of_cons in E as [E | E];
              [injection E as -> ->;
               split; [unfold keyword_spellings; set_solver |];
               split; [discriminate |];
               intros j Hj; unfold keyword_spellings in Hj;
               repeat (apply elem_of_cons in Hj as [-> | Hj]; [vm_compute; congruence |]);
               by apply elem_of_nil in Hj |]).
      by apply elem_of_nil in E.
    - right. split; [| reflexivity].
      by apply not_elem_of_list_to_map in E. }
  split.
  - destruct (Hcases ident) as [(Hin & Hne & _) | (Hnot & Heq)]; split; try done.
  - intros other Heq Hne.
    destruct (Hcases ident) as [(Hin & _ & Hinj) | (_ & Hid)]; [| contradiction].
    destruct (Hcases other) as [(Hin' & _) | (_ & Hid')]; [by apply Hinj | congruence].
Qed.

(** ** The handler tables *)

(** The token types with a precedence of their own are exactly those
    with an infix parse function, so whenever the loop of
    [parseExpression] finds a next token that binds tighter than the
    current precedence, it finds an infix function for it. *)
Theorem precedences_match_infix_functions
        (parseExpression_rec : nat -> P Expression) (n : nat)
        (p : Parser) (precedence : nat) :
  (forall t, is_Some (precedences !! t)
             <-> is_Some (infixParseFns parseExpression_rec n !! t)) /\
  ((LOWEST <= precedence)%nat -> (precedence < peekPrecedence p)%nat ->
   is_Some (infixParseFns parseExpression_rec n !! token.Type_ (peekToken p))).
Proof.
  assert (Hdom : forall t, is_Some (precedences !! t)
                           <-> is_Some (infixParseFns parseExpression_rec n !! t)).
  { intros t. rewrite <- !elem_of_dom.
    unfold precedences, infixParseFns. rewrite !dom_list_to_map_L.
    cbn [fmap list_fmap fst]. set_solver. }
  split; [exact Hdom |].
  intros Hlow Hlt. apply Hdom. unfold peekPrecedence, LOWEST in *.
  destruct (precedences !! token.Type_ (peekToken p)); [eauto | lia].
Qed.

Lemma precedences_match_infix_functions_witness :
  is_Some (infixParseFns (parseExpression 0) 0 !! PLUS).
Proof.
  apply (proj2 (precedences_match_infix_functions
                  (parseExpression 0) 0
                  (mkParser [] (ident_token "a") (token.mkToken PLUS "+") []) LOWEST));
    vm_compute; lia.
Defined.

(** A current token that cannot start an expression (any type other
    than the twelve with a prefix parse function, for instance [)],
    [=] or EOF) makes [parseExpression] return nil, record the
    no-prefix-function error naming that type, and read no token. *)
Theorem no_prefix_function (fuel : nat) (precedence : nat) (p : Parser) :
  token.Type_ (curToken p) ∉ prefix_types ->
  parseExpression (S fuel) precedence p
  = Some (NilExpression, noPrefixParseFnError (token.Type_ (curToken p)) p).
Proof.
  intros Hnot. cbn [parseExpression]. unfold parseExpression_body.
  replace (prefixParseFns (parseExpression fuel) (parseStatement fuel) fuel
           !! token.Type_ (curToken p)) with (@None (P Expression)); [reflexivity |].
  symmetry. apply not_elem_of_list_to_map. exact Hnot.
Qed.

Lemma no_prefix_function_witness :
  parseExpression 1 LOWEST (New [token.mkToken RPAREN ")"])
  = Some (NilExpression,
          mkParser [] (token.mkToken RPAREN ")") EOF_token
                   ["没有针对 ) 的前缀表达式解析函数"]).
Proof.
  apply (no_prefix_function 0 LOWEST (New [token.mkToken RPAREN ")"])).
  vm_compute. set_solver.
Defined.

(** ** Precedence and associativity *)

Lemma append_nil_r (str : string) : str +:+ EmptyString = str.
Proof.
  induction str as [| ch str IH]; [reflexivity |].
  change (String.String ch (str +:+ EmptyString) = String.String ch str).
  by rewrite IH.
Qed.

(** In [a op1 b op2 c], with any two binary operators and any three
    identifiers, the second operator takes [b] when its precedence is
    higher than the first's, and otherwise the first does: operators of
    equal precedence associate to the left.  The program is the one
    expression statement, no error is recorded, and [String()] prints
    the grouping with parentheses. *)
Theorem binary_operators_group_by_precedence (a b c t1 l1 t2 l2 : string) :
  In t1 binary_operators -> In t2 binary_operators ->
  let op1 := token.mkToken t1 l1 in
  let op2 := token.mkToken t2 l2 in
  let tokens := [ident_token a; op1; ident_token b; op2; ident_token c] in
  let grouped :=
    if (precedence_of t1 <? precedence_of t2)%nat
    then InfixExpression op1 (ident_node a) l1
                         (InfixExpression op2 (ident_node b) l2 (ident_node c))
    else InfixExpression op2 (InfixExpression op1 (ident_node a) l1 (ident_node b))
                         l2 (ident_node c) in
  let program := mkProgram [ExpressionStatement (ident_token a) grouped] in
  (exists p', ParseProgram 8 (New tokens) = Some (program, p') /\ errors p' = []) /\
  Program_String id program
  = Some (if (precedence_of t1 <? precedence_of t2)%nat
          then "(" +:+ a +:+ " " +:+ l1 +:+ " " +:+
               ("(" +:+ b +:+ " " +:+ l2 +:+ " " +:+ c +:+ ")") +:+ ")"
          else "(" +:+ ("(" +:+ a +:+ " " +:+ l1 +:+ " " +:+ b +:+ ")") +:+
               " " +:+ l2 +:+ " " +:+ c +:+ ")").
Proof.
  intros H1 H2. cbn in H1, H2.
  destruct H1 as [<- | [<- | [<- | [<- | [<- | [<- | [<- | [<- | []]]]]]]]];
    destruct H2 as [<- | [<- | [<- | [<- | [<- | [<- | [<- | [<- | []]]]]]]]];
    (split; [exists finished; split; vm_compute; reflexivity |]);
    unfold Program_String, concat_strings; cbn [Statements mapM];
    match goal with
    | |- context [if ?c then _ else _] =>
        let v := eval vm_compute in c in change c with v; cbv iota
    end;
    cbn [Statement_String Expression_String ident_node mbind option_bind mret option_ret
         fold_right];
    rewrite append_nil_r; reflexivity.
Qed.

Lemma binary_operators_group_by_precedence_witness :
  exists p',
    ParseProgram 8 (New [ident_token "a"; token.mkToken PLUS "+"; ident_token "b";
                         token.mkToken ASTERISK "*"; ident_token "c"])
    = Some (mkProgram
              [ExpressionStatement
                 (ident_token "a")
                 (InfixExpression (token.mkToken PLUS "+") (ident_node "a") "+"
                    (InfixExpression (token.mkToken ASTERISK "*")
                                     (ident_node "b") "*" (ident_node "c")))],
            p') /\
    errors p' = [].
Proof.
  apply (binary_operators_group_by_precedence "a" "b" "c" PLUS "+" ASTERISK "*");
    cbn; tauto.
Defined.

(** Prefix operators, calls and index expressions bind tighter than
    every binary operator: [pre a op b] is [(pre a) op b], and in
    [a op f(b)] and [a op b[c]] the call and the index expression are
    the right operand of [op]. *)
Theorem binary_operators_bind_loosest (a b c t l pt pl : string) :
  In t binary_operators -> In pt [BANG; MINUS] ->
  let op := token.mkToken t l in
  let pre := token.mkToken pt pl in
  let lparen := token.mkToken LPAREN "(" in
  let lbracket := token.mkToken LBRACKET "[" in
  let parses tokens tok expression :=
    exists p', ParseProgram 8 (New tokens)
               = Some (mkProgram [ExpressionStatement tok expression], p') /\
               errors p' = [] in
  parses [pre; ident_token a; op; ident_token b] pre
         (InfixExpression op (PrefixExpression pre pl (ident_node a)) l (ident_node b)) /\
  parses [ident_token a; op; ident_token b; lparen; ident_token c;
          token.mkToken RPAREN ")"]
         (ident_token a)
         (InfixExpression op (ident_node a) l
                          (CallExpression lparen (ident_node b) [ident_node c])) /\
  parses [ident_token a; op; ident_token b; lbracket; ident_token c;
          token.mkToken RBRACKET "]"]
         (ident_token a)
         (InfixExpression op (ident_node a) l
                          (IndexExpression lbracket (ident_node b) (ident_node c))).
Proof.
  intros H1 H2. cbn in H1, H2.
  destruct H1 as [<- | [<- | [<- | [<- | [<- | [<- | [<- | [<- | []]]]]]]]];
    destruct H2 as [<- | [<- | []]];
    repeat split; exists finished; split; vm_compute; reflexivity.
Qed.

Lemma binary_operators_bind_loosest_witness :
  exists p',
    ParseProgram 8 (New [token.mkToken MINUS "-"; ident_token "a";
                         token.mkToken ASTERISK "*"; ident_token "b"])
    = Some (mkProgram
              [ExpressionStatement
                 (token.mkToken MINUS "-")
                 (InfixExpression (token.mkToken ASTERISK "*")
                    (PrefixExpression (token.mkToken MINUS "-") "-" (ident_node "a")) "*"
                    (ident_node "b"))],
            p') /\
    errors p' = [].
Proof.
  apply (binary_operators_bind_loosest "a" "b" "c" ASTERISK "*" MINUS "-");
    cbn; tauto.
Defined.

(** ** Malformed let statements *)

Lemma mapM_None_middle {A B} (f : A -> option B) (before after : list A) (x : A) :
  f x = None -> mapM f (before ++ x :: after) = None.
Proof.
  intros Hx. induction before as [| y before IH]; cbn.
  - by rewrite Hx.
  - destruct (f y); [cbn; by rewrite IH | reflexivity].
Qed.

(** A [let] that is not followed by an identifier, or whose identifier
    is not followed by [=], records the expected-token error and makes
    [parseLetStatement] return a nil pointer; [parseStatement] hands it
    on inside a Statement interface that is not nil, so [ParseProgram]
    appends it to the statements of the program, whose [String()] then
    panics. *)
Theorem malformed_let_leaves_nil_statement
        (fuel n : nat) (statements : list Statement) (p : Parser) :
  token.Type_ (curToken p) = LET ->
  (token.Type_ (peekToken p) <> token.IDENT ->
   parseStatement (S fuel) p = Some (NilLetStatement, peekError token.IDENT p) /\
   ParseProgram_loop (S fuel) (S n) statements p
   = ParseProgram_loop (S fuel) n (statements ++ [NilLetStatement])
                       (nextToken (peekError token.IDENT p))) /\
  (token.Type_ (peekToken p) = token.IDENT ->
   token.Type_ (NextToken (l p)).1 <> ASSIGN ->
   parseStatement (S fuel) p
   = Some (NilLetStatement, peekError ASSIGN (nextToken p))) /\
  (forall before after,
      Program_String id (mkProgram (before ++ NilLetStatement :: after)) = None).
Proof.
  intros Hlet.
  assert (Hstmt : parseStatement (S fuel) p = parseLetStatement (parseExpression fuel) p).
  { cbn [parseStatement]. unfold parseStatement_body, mbind, P_bind, get.
    rewrite Hlet. reflexivity. }
  split; [| split].
  - intros Hpeek.
    assert (H1 : parseStatement (S fuel) p
                 = Some (NilLetStatement, peekError token.IDENT p)).
    { rewrite Hstmt. unfold parseLetStatement, mbind, P_bind, get, expectPeek, peekTokenIs.
      apply String.eqb_neq in Hpeek. rewrite Hpeek. reflexivity. }
    split; [exact H1 |].
    cbn [ParseProgram_loop]. rewrite Hlet.
    change (String.eqb LET token.EOF) with false. cbn [negb].
    unfold mbind, P_bind. rewrite H1. reflexivity.
  - intros Hpeek Hnext. rewrite Hstmt.
    unfold parseLetStatement, mbind, P_bind, get, expectPeek, peekTokenIs.
    rewrite Hpeek. change (String.eqb token.IDENT token.IDENT) with true. cbv iota.
    cbn [negb].
    replace (String.eqb (token.Type_ (peekToken (nextToken p))) ASSIGN) with false;
      [reflexivity |].
    symmetry. apply String.eqb_neq. unfold nextToken.
    destruct (NextToken (l p)) as [tok l'] eqn:E. exact Hnext.
  - intros before after. unfold Program_String. cbn [Statements].
    by rewrite mapM_None_middle.
Qed.

Lemma malformed_let_leaves_nil_statement_witness :
  parseStatement 1 (New [token.mkToken LET "let"; token.mkToken ASSIGN "="])
  = Some (NilLetStatement,
          mkParser [] (token.mkToken LET "let") (token.mkToken ASSIGN "=")
                   ["期望下一个token是 IDENT，但是实际是 ="]).
Proof.
  apply (proj1 (malformed_let_leaves_nil_statement
                  0 0 [] (New [token.mkToken LET "let"; token.mkToken ASSIGN "="])
                  eq_refl)).
  discriminate.
Defined.

(** ** The parser only moves forward *)

Lemma mf_ret {A} (a : A) : moves_forward (mret a).
Proof. intros p a' p' H. injection H as <- <-. done. Qed.

Lemma mf_bind {A B} (m : P A) (f : A -> P B) :
  moves_forward m -> (forall a, moves_forward (f a)) -> moves_forward (mbind f m).
Proof.
  intros Hm Hf p b p' H. unfold mbind, P_bind in H.
  destruct (m p) as [[a p1] |] eqn:E; [| discriminate].
  destruct (Hm _ _ _ E) as [He1 Hl1]. destruct (Hf a _ _ _ H) as [He2 Hl2].
  split; [etrans; [exact He1 | exact He2] | etrans; [exact Hl2 | exact Hl1]].
Qed.

Lemma mf_get {A} (f : Parser -> A) : moves_forward (get f).
Proof. intros p a p' H. injection H as <- <-. done. Qed.

Lemma nextToken_forward (p : Parser) :
  errors (nextToken p) = errors p /\ l (nextToken p) `suffix_of` l p.
Proof.
  unfold nextToken, NextToken. destruct (l p) as [| tok l']; cbn.
  - done.
  - split; [done |]. by apply suffix_cons_r.
Qed.

Lemma mf_step (f : Parser -> Parser) :
  (forall p, errors p `prefix_of` errors (f p) /\ l (f p) `suffix_of` l p) ->
  forall {A} (a : A), moves_forward (fun p => Some (a, f p)).
Proof. intros Hf A a p a' p' H. injection H as <- <-. apply Hf. Qed.

Lemma nextToken_step (p : Parser) :
  errors p `prefix_of` errors (nextToken p) /\ l (nextToken p) `suffix_of` l p.
Proof. destruct (nextToken_forward p) as [-> H]. done. Qed.

Lemma mf_run_nextToken : moves_forward (run nextToken).
Proof. apply (mf_step nextToken nextToken_step). Qed.

Lemma mf_expectPeek (t : string) : moves_forward (expectPeek t).
Proof.
  intros p b p' H. unfold expectPeek in H.
  destruct (peekTokenIs t p); injection H as <- <-.
  - apply nextToken_step.
  - split; [by apply prefix_app_r | done].
Qed.

Lemma mf_skip_semicolon : moves_forward skip_semicolon.
Proof.
  intros p u p' H. unfold skip_semicolon in H.
  destruct (peekTokenIs SEMICOLON p); injection H as <- <-;
    [apply nextToken_step | done].
Qed.

Lemma mf_at {A} (m : P A) (f : Parser -> Parser) :
  (forall p, errors p `prefix_of` errors (f p) /\ l (f p) `suffix_of` l p) ->
  moves_forward m -> moves_forward (fun p => m (f p)).
Proof.
  intros Hf Hm p a p' H. destruct (Hf p) as [He Hl].
  destruct (Hm _ _ _ H) as [He' Hl'].
  split; [etrans; [exact He | exact He'] | etrans; [exact Hl' | exact Hl]].
Qed.

Ltac mf :=
  repeat first
    [ assumption
    | apply mf_ret | apply mf_get | apply mf_run_nextToken
    | apply mf_expectPeek | apply mf_skip_semicolon
    | apply mf_bind; [| intros ?]
    | match goal with
      | |- moves_forward (if ?c then _ else _) => destruct c
      | |- moves_forward (match ?x with _ => _ end) => destruct x
      | H : forall x, moves_forward (?f x) |- moves_forward (?f _) => apply H
      | H : forall x y, moves_forward (?f x y) |- moves_forward (?f _ _) => apply H
      end ].

Lemma mf_parseIdentifier : moves_forward parseIdentifier.
Proof. apply mf_get. Qed.

Lemma mf_parseIntegerLiteral : moves_forward parseIntegerLiteral.
Proof.
  intros p e p' H. unfold parseIntegerLiteral in H.
  destruct (strconv.ParseInt _) as [v [err |]]; injection H as <- <-.
  - split; [by apply prefix_app_r | done].
  - done.
Qed.

Lemma mf_parseFunctionParameters_loop n :
  forall identifiers, moves_forward (parseFunctionParameters_loop n identifiers).
Proof.
  induction n as [| n IH]; intros identifiers p r p' H;
    cbn [parseFunctionParameters_loop] in H;
    destruct (peekTokenIs COMMA p); try discriminate;
    try (injection H as <- <-; done).
  destruct (IH _ _ _ _ H) as [He Hl].
  destruct (nextToken_forward p) as [E1 L1].
  destruct (nextToken_forward (nextToken p)) as [E2 L2].
  rewrite E2, E1 in He. split; [exact He |].
  etrans; [exact Hl |]. etrans; [exact L2 | exact L1].
Qed.

Lemma mf_parseFunctionParameters n : moves_forward (parseFunctionParameters n).
Proof.
  intros p r p' H. unfold parseFunctionParameters in H.
  destruct (peekTokenIs RPAREN p).
  - injection H as <- <-. apply nextToken_step.
  - revert H.
    apply (mf_at (identifiers ← parseFunctionParameters_loop n
                                  [mkIdent (curToken (nextToken p))
                                           (token.Literal (curToken (nextToken p)))];
                  ok ← expectPeek RPAREN;
                  if (ok : bool) then mret identifiers else mret [])
                 nextToken nextToken_step).
    apply mf_bind; [apply mf_parseFunctionParameters_loop |]. intros ?. mf.
Qed.

Section forward_body.

Variable parseExpression_rec : nat -> P Expression.
Variable parseStatement_rec : P Statement.
Hypothesis mf_expression : forall precedence, moves_forward (parseExpression_rec precedence).
Hypothesis mf_statement : moves_forward parseStatement_rec.

Lemma mf_parseStatement_body : moves_forward (parseStatement_body parseExpression_rec).
Proof.
  unfold parseStatement_body, parseLetStatement, parseReturnStatement,
    parseExpressionStatement. mf.
Qed.

Lemma mf_parseExpressionList_loop n :
  forall args, moves_forward (parseExpressionList_loop parseExpression_rec n args).
Proof.
  induction n as [| n IH]; intros args p r p' H;
    cbn [parseExpressionList_loop] in H;
    destruct (peekTokenIs COMMA p); try discriminate;
    try (injection H as <- <-; done).
  revert H.
  apply (mf_at (arg ← parseExpression_rec LOWEST;
                parseExpressionList_loop parseExpression_rec n (args ++ [arg]))
               (fun p => nextToken (nextToken p))).
  - intros q. destruct (nextToken_step q) as [E1 L1].
    destruct (nextToken_step (nextToken q)) as [E2 L2].
    split; [etrans; [exact E1 | exact E2] | etrans; [exact L2 | exact L1]].
  - mf.
Qed.

Lemma mf_parseExpressionList n end_ :
  moves_forward (parseExpressionList parseExpression_rec n end_).
Proof.
  intros p r p' H. unfold parseExpressionList in H.
  destruct (peekTokenIs end_ p).
  - injection H as <- <-. apply nextToken_step.
  - revert H.
    apply (mf_at (first ← parseExpression_rec LOWEST;
                  args ← parseExpressionList_loop parseExpression_rec n [first];
                  ok ← expectPeek end_;
                  if (ok : bool) then mret args else mret [])
                 nextToken nextToken_step).
    pose proof (mf_parseExpressionList_loop n). mf.
Qed.

Lemma mf_parseBlockStatement_loop n :
  forall statements, moves_forward (parseBlockStatement_loop parseStatement_rec n statements).
Proof.
  induction n as [| n IH]; intros statements p r p' H;
    cbn [parseBlockStatement_loop] in H;
    destruct (negb (curTokenIs RBRACE p) && negb (curTokenIs token.EOF p));
    try discriminate; try (injection H as <- <-; done).
  revert H. generalize p r p'. change (moves_forward
    (stmt ← parseStatement_rec;
     _ ← run nextToken;
     parseBlockStatement_loop parseStatement_rec n
       match stmt with
       | NilStatement => statements
       | _ => statements ++ [stmt]
       end)).
  mf.
Qed.

Lemma mf_parseBlockStatement n : moves_forward (parseBlockStatement parseStatement_rec n).
Proof. unfold parseBlockStatement. pose proof (mf_parseBlockStatement_loop n). mf. Qed.

Lemma mf_parseHashLiteral_loop n :
  forall tok pairs, moves_forward (parseHashLiteral_loop parseExpression_rec n tok pairs).
Proof.
  induction n as [| n IH]; intros tok pairs p r p' H;
    cbn [parseHashLiteral_loop] in H;
    destruct (negb (peekTokenIs RBRACE p)); try discriminate.
  - revert H. generalize p r p'. change (moves_forward
      (ok ← expectPeek RBRACE;
       if negb ok then mret NilExpression else mret (HashLiteral tok pairs))). mf.
  - revert H. generalize p r p'. change (moves_forward
      (_ ← run nextToken;
       key ← parseExpression_rec LOWEST;
       ok ← expectPeek COLON;
       if negb ok then mret NilExpression else
       _ ← run nextToken;
       val ← parseExpression_rec LOWEST;
       at_end ← get (peekTokenIs RBRACE);
       if (at_end : bool)
       then parseHashLiteral_loop parseExpression_rec n tok (Pairs_insert key val pairs)
       else
         ok ← expectPeek COMMA;
         if negb ok then mret NilExpression
         else parseHashLiteral_loop parseExpression_rec n tok (Pairs_insert key val pairs))).
    mf; apply IH.
  - revert H. generalize p r p'. change (moves_forward
      (ok ← expectPeek RBRACE;
       if negb ok then mret NilExpression else mret (HashLiteral tok pairs))). mf.
Qed.

Lemma mf_prefix n t prefix :
  prefixParseFns parseExpression_rec parseStatement_rec n !! t = Some prefix ->
  moves_forward prefix.
Proof.
  intros H. apply elem_of_list_to_map_2 in H.
  pose proof (mf_parseExpressionList n). pose proof (mf_parseBlockStatement n).
  pose proof (mf_parseHashLiteral_loop n). pose proof (mf_parseFunctionParameters n).
  repeat (apply elem_of_cons in H as [H | H];
          [injection H as -> ->;
           first [ apply mf_parseIdentifier | apply mf_parseIntegerLiteral
                 | unfold parseStringLiteral, parseBoolean, parseArrayLiteral,
                     parsePrefixExpression, parseGroupedExpression, parseIfExpression,
                     parseFunctionLiteral, parseHashLiteral; mf ] |]).
  by apply elem_of_nil in H.
Qed.

Lemma mf_infix n t infix :
  infixParseFns parseExpression_rec n !! t = Some infix ->
  forall leftExpr, moves_forward (infix leftExpr).
Proof.
  intros H leftExpr. apply elem_of_list_to_map_2 in H.
  pose proof (mf_parseExpressionList n).
  repeat (apply elem_of_cons in H as [H | H];
          [injection H as -> ->;
           unfold parseInfixExpression, parseCallExpression, parseIndexExpression; mf |]).
  by apply elem_of_nil in H.
Qed.

Lemma mf_parseExpression_loop n steps :
  forall precedence leftExpr,
    moves_forward (parseExpression_loop parseExpression_rec n steps precedence leftExpr).
Proof.
  induction steps as [| steps IH]; intros precedence leftExpr p r p' H;
    cbn [parseExpression_loop] in H;
    destruct (negb (peekTokenIs SEMICOLON p) && (precedence <? peekPrecedence p)%nat);
    try (injection H as <- <-; done);
    destruct (infixParseFns parseExpression_rec n !! token.Type_ (peekToken p))
      as [infix |] eqn:E;
    try discriminate; try (injection H as <- <-; done).
  revert H.
  apply (mf_at (leftExpr ← infix leftExpr;
                parseExpression_loop parseExpression_rec n steps precedence leftExpr)
               nextToken nextToken_step).
  apply mf_bind; [by eapply mf_infix | intros ?; apply IH].
Qed.

Lemma mf_parseExpression_body n precedence :
  moves_forward (parseExpression_body parseExpression_rec parseStatement_rec n precedence).
Proof.
  intros p r p' H. unfold parseExpression_body in H.
  destruct (prefixParseFns parseExpression_rec parseStatement_rec n
            !! token.Type_ (curToken p)) as [prefix |] eqn:E.
  - revert H. generalize p r p'.
    change (moves_forward (leftExpr ← prefix;
                           parseExpression_loop parseExpression_rec n n precedence leftExpr)).
    apply mf_bind; [by eapply mf_prefix | intros ?; apply mf_parseExpression_loop].
  - injection H as <- <-. split; [by apply prefix_app_r | done].
Qed.

End forward_body.

Lemma mf_parse (fuel : nat) :
  (forall precedence, moves_forward (parseExpression fuel precedence)) /\
  moves_forward (parseStatement fuel).
Proof.
  induction fuel as [| fuel [IHe IHs]].
  - split; [intros ? |]; intros p r p' H; discriminate.
  - split.
    + intros precedence. cbn [parseExpression].
      by apply mf_parseExpression_body.
    + cbn [parseStatement]. by apply mf_parseStatement_body.
Qed.

(** Parsing never takes back what it has recorded or read: when
    [ParseProgram], [parseStatement] or [parseExpression] returns, the
    errors it started with are a prefix of the errors it ends with, and
    the tokens left in the lexer are a suffix of those it found. *)
Theorem parser_moves_forward (fuel : nat) :
  moves_forward (ParseProgram fuel) /\
  moves_forward (parseStatement fuel) /\
  (forall precedence, moves_forward (parseExpression fuel precedence)).
Proof.
  destruct (mf_parse fuel) as [He Hs]. split; [| by split].
  unfold ParseProgram. generalize (@nil Statement). generalize fuel at 2.
  intros n. induction n as [| n IH]; intros statements p r p' H;
    cbn [ParseProgram_loop] in H;
    destruct (negb (String.eqb (token.Type_ (curToken p)) token.EOF));
    try discriminate; try (injection H as <- <-; done).
  revert H. generalize p r p'. change (moves_forward
    (stmt ← parseStatement fuel;
     _ ← run nextToken;
     ParseProgram_loop fuel n
       match stmt with
       | NilStatement => statements
       | _ => statements ++ [stmt]
       end)).
  mf; apply IH.
Qed.

End parser_properties.
